(** * LocalSymbolicMemory: the in-process document store of eidos_sdk

    Source: [sdk/eidos_sdk/memory/local_symbolic_memory.py].

    The store is a class-level dictionary [db] from collection names to
    Python lists of documents; a document is a Python [dict] with string
    keys.  The development has two layers.

    - The first layer works on document *values*: finite trees built from
      [None], booleans, integers, strings, lists and dicts.  Floats are
      left out (their equality is not reflexive and their arithmetic is not
      that of [Z]).  A dict is an association list in insertion order whose
      keys are pairwise different ([wf_value]); Python's [==] is the
      function [py_eq], which ignores the order of dict items and
      identifies [True] with [1].  On values [copy.deepcopy] is the
      identity.
    - The second layer ([Module Heap]) gives objects an identity: dicts and
      lists live in a heap, values hold references, [deepcopy] allocates
      with a memo table as [copy.deepcopy] does.  It is used for the claims
      that depend on aliasing. *)

From Stdlib Require Import ZArith.
From stdpp Require Import gmap strings list.

Local Open Scope Z_scope.
Local Open Scope string_scope.
Local Open Scope list_scope.

(** ** Python values *)

Unset Elimination Schemes.
Inductive value : Type :=
| VNone
| VBool (b : bool)
| VInt (z : Z)
| VStr (s : string)
| VList (xs : list value)
| VDict (items : list (string * value)).
Set Elimination Schemes.

(** A Python [dict] with string keys, in insertion order. *)
Abbreviation dict := (list (string * value)).

(** Induction over values, with the hypothesis available for every member
    of a list and every value of a dict. *)
Definition value_ind (P : value → Prop)
    (HNone : P VNone)
    (HBool : ∀ b, P (VBool b))
    (HInt : ∀ z, P (VInt z))
    (HStr : ∀ s, P (VStr s))
    (HList : ∀ xs, Forall P xs → P (VList xs))
    (HDict : ∀ items, Forall (λ kv, P kv.2) items → P (VDict items)) :
    ∀ v, P v :=
  fix rec (v : value) : P v :=
    match v with
    | VNone => HNone
    | VBool b => HBool b
    | VInt z => HInt z
    | VStr s => HStr s
    | VList xs =>
        HList xs ((fix members (l : list value) : Forall P l :=
                     match l with
                     | [] => Forall_nil_2 P
                     | x :: l' => Forall_cons_2 P x l' (rec x) (members l')
                     end) xs)
    | VDict items =>
        HDict items
          ((fix fields (l : dict) : Forall (λ kv, P kv.2) l :=
              match l with
              | [] => Forall_nil_2 _
              | kv :: l' => Forall_cons_2 _ kv l' (rec kv.2) (fields l')
              end) items)
    end.

(** [d.get(key)] / the lookup behind [d[key]] and [key in d]. *)
Fixpoint dict_get (d : dict) (key : string) : option value :=
  match d with
  | [] => None
  | (k, v) :: d' => if String.eqb k key then Some v else dict_get d' key
  end.

(** [d.get(key)] with Python's default result [None]. *)
Definition dict_get_or_none (d : dict) (key : string) : value :=
  match dict_get d key with
  | Some v => v
  | None => VNone
  end.

(** [d[key] = v]: an existing key keeps its position, a new key goes last. *)
Fixpoint dict_set (d : dict) (key : string) (v : value) : dict :=
  match d with
  | [] => [(key, v)]
  | (k, w) :: d' =>
      if String.eqb k key then (k, v) :: d' else (k, w) :: dict_set d' key v
  end.

(** [d.update(other)]. *)
Definition dict_update (d other : dict) : dict :=
  fold_left (λ acc kv, dict_set acc kv.1 kv.2) other d.

(** Python's [a == b] on the modelled values. *)
Fixpoint py_eq (a b : value) {struct a} : bool :=
  match a, b with
  | VNone, VNone => true
  | VBool x, VBool y => Bool.eqb x y
  | VBool x, VInt y => Z.eqb (Z.b2z x) y
  | VInt x, VBool y => Z.eqb x (Z.b2z y)
  | VInt x, VInt y => Z.eqb x y
  | VStr x, VStr y => String.eqb x y
  | VList xs, VList ys =>
      (fix members (l r : list value) : bool :=
         match l, r with
         | [], [] => true
         | x :: l', y :: r' => py_eq x y && members l' r'
         | _, _ => false
         end) xs ys
  | VDict items, VDict others =>
      Nat.eqb (length items) (length others) &&
      (fix fields (l : dict) : bool :=
         match l with
         | [] => true
         | (k, v) :: l' =>
             match dict_get others k with
             | Some w => py_eq v w
             | None => false
             end && fields l'
         end) items
  | _, _ => false
  end.

(** The representation invariant of values: dict keys are pairwise
    different, at every depth. *)
Fixpoint nodup_keys (keys : list string) : bool :=
  match keys with
  | [] => true
  | k :: keys' => negb (existsb (String.eqb k) keys') && nodup_keys keys'
  end.

Fixpoint wf_value (v : value) : bool :=
  match v with
  | VList xs => forallb wf_value xs
  | VDict items =>
      nodup_keys (map fst items) &&
      (fix fields (l : dict) : bool :=
         match l with
         | [] => true
         | (_, w) :: l' => wf_value w && fields l'
         end) items
  | _ => true
  end.

Definition wf_dict (d : dict) : bool := wf_value (VDict d).

(** ** Exceptions *)

Inductive exn : Type :=
| TypeError
| KeyError (key : string)
| DuplicateKeyError (id : value).

Inductive result (A : Type) : Type :=
| Ok (a : A)
| Raise (e : exn).
Arguments Ok {A} a.
Arguments Raise {A} e.

(** Sequencing: an exception skips the rest ([x ← r; k] below). *)
#[global] Instance result_bind : MBind result := λ A B k r,
  match r with
  | Ok a => k a
  | Raise e => Raise e
  end.

(** ** Operators used by the matcher *)

(** [needle in haystack] for strings: the substring test. *)
Fixpoint str_contains (haystack needle : string) : bool :=
  String.prefix needle haystack ||
  match haystack with
  | EmptyString => false
  | String _ rest => str_contains rest needle
  end.

(** [key in doc] for a string [key]. *)
Definition py_contains (doc : value) (key : string) : result bool :=
  match doc with
  | VDict items => Ok (bool_decide (is_Some (dict_get items key)))
  | VStr s => Ok (str_contains s key)
  | VList xs => Ok (existsb (λ x, py_eq x (VStr key)) xs)
  | VNone | VBool _ | VInt _ => Raise TypeError
  end.

(** [doc[key]] for a string [key]. *)
Definition py_getitem (doc : value) (key : string) : result value :=
  match doc with
  | VDict items =>
      match dict_get items key with
      | Some v => Ok v
      | None => Raise (KeyError key)
      end
  | _ => Raise TypeError
  end.

(** [isinstance(v, dict)]. *)
Definition is_dict (v : value) : bool :=
  match v with
  | VDict _ => true
  | _ => false
  end.

(** ** The two matching predicates *)

(** [_matches_query(doc, query)], with [query] seen as a value so that the
    recursion into a nested query is structural. *)
Fixpoint matches_value (query : value) (doc : value) {struct query}
    : result bool :=
  match query with
  | VDict items =>
      (fix loop (l : dict) : result bool :=
         match l with
         | [] => Ok true
         | (key, value) :: l' =>
             present ← py_contains doc key;
             if negb present then Ok false
             else if is_dict value then
               sub ← py_getitem doc key;
               m ← matches_value value sub;
               if negb m then Ok false else loop l'
             else
               cur ← py_getitem doc key;
               if negb (py_eq cur value) then Ok false else loop l'
         end) items
  | _ => Raise TypeError
  end.

Definition _matches_query (doc : value) (query : dict) : result bool :=
  matches_value (VDict query) doc.

(** [item in doc.items()]. *)
Definition item_in_items (doc : dict) (item : string * value) : bool :=
  match dict_get doc item.1 with
  | Some v => py_eq v item.2
  | None => false
  end.

(** [all(item in doc.items() for item in query.items())], the predicate of
    [count] and [delete]. *)
Definition flat_matches (doc query : dict) : bool :=
  forallb (item_in_items doc) query.

(** ** The store and its operations *)

(** [LocalSymbolicMemory.db]: collection name to list of documents. *)
Abbreviation store := (gmap string (list dict)).

(** [copy.deepcopy] on values: a value has no identity, the copy is the
    value (the allocating version is [Heap.deepcopy]). *)
Definition deepcopy {A : Type} (x : A) : A := x.

(** [start] and [stop] rebind [db] to an empty dictionary. *)
Definition start (db : store) : store := ∅.
Definition stop (db : store) : store := ∅.

(** [self.db[c]] for a present collection; [[]] stands for an absent one
    where the source has already returned or created it. *)
Definition collection (db : store) (c : string) : list dict :=
  default [] (db !! c).

(** [if c not in self.db: self.db[c] = []]. *)
Definition ensure_collection (c : string) (db : store) : store :=
  match db !! c with
  | Some _ => db
  | None => <[c := []]> db
  end.

(** [count]: the operation cannot raise; it has the type of the other
    operations, result and store after the call. *)
Definition count (c : string) (query : dict) (db : store)
    : result nat * store :=
  match db !! c with
  | None => (Ok 0%nat, db)
  | Some docs =>
      (Ok (length (List.filter (λ doc, flat_matches doc query) docs)), db)
  end.

(** [projection[field] == 1] for a field named in the projection. *)
Definition projected (projection : dict) (field : string) : bool :=
  match dict_get projection field with
  | Some flag => py_eq flag (VInt 1)
  | None => false
  end.

Definition _apply_projection (doc projection : dict) : dict :=
  List.filter (λ kv, projected projection kv.1) doc.

(** [self._apply_projection(doc, projection) if projection else doc]:
    [None] and the empty dict are falsy.  The projection is modelled in
    its dict form, field name to flag. *)
Definition project (projection : option dict) (doc : dict) : dict :=
  match projection with
  | Some (f :: fs) => _apply_projection doc (f :: fs)
  | _ => doc
  end.

(** [find] is a generator: what it yields, in order, and the exception
    that ends the iteration if one is raised.  [sort] and [skip] are
    ignored by the source. *)
Fixpoint find_loop (docs : list dict) (query : dict)
    (projection : option dict) : list dict * option exn :=
  match docs with
  | [] => ([], None)
  | doc :: rest =>
      match _matches_query (VDict doc) query with
      | Raise e => ([], Some e)
      | Ok m =>
          let '(ys, e) := find_loop rest query projection in
          ((if m then [deepcopy (project projection doc)] else []) ++ ys, e)
      end
  end.

Definition find (c : string) (query : dict) (projection : option dict)
    (db : store) : list dict * option exn :=
  match db !! c with
  | None => ([], None)
  | Some docs => find_loop docs query projection
  end.

Fixpoint find_one_loop (docs : list dict) (query : dict)
    : result (option dict) :=
  match docs with
  | [] => Ok None
  | doc :: rest =>
      m ← _matches_query (VDict doc) query;
      if (m : bool) then Ok (Some (deepcopy doc)) else find_one_loop rest query
  end.

Definition find_one (c : string) (query : dict) (db : store)
    : result (option dict) * store :=
  match db !! c with
  | None => (Ok None, db)
  | Some docs => (find_one_loop docs query, db)
  end.

(** [any(doc.get("_id") == document.get("_id") for doc in docs)]. *)
Definition id_taken (docs : list dict) (document : dict) : bool :=
  existsb (λ doc, py_eq (dict_get_or_none doc "_id")
                        (dict_get_or_none document "_id")) docs.

Definition insert_one (c : string) (document : dict) (db : store)
    : result () * store :=
  let db := ensure_collection c db in
  let docs := collection db c in
  if id_taken docs document
  then (Raise (DuplicateKeyError (dict_get_or_none document "_id")), db)
  else (Ok (), <[c := docs ++ [deepcopy document]]> db).

(** The checking loop of [insert]: the id of the first document of the
    batch that collides with a stored one. *)
Fixpoint first_duplicate (docs : list dict) (documents : list dict)
    : option value :=
  match documents with
  | [] => None
  | document :: rest =>
      if id_taken docs document
      then Some (dict_get_or_none document "_id")
      else first_duplicate docs rest
  end.

Definition insert (c : string) (documents : list dict) (db : store)
    : result () * store :=
  let db := ensure_collection c db in
  let docs := collection db c in
  match first_duplicate docs documents with
  | Some id => (Raise (DuplicateKeyError id), db)
  | None => (Ok (), <[c := docs ++ deepcopy documents]> db)
  end.

(** The [enumerate] loop of [upsert_one]: the index of the first document
    that matches, counting from [i]. *)
Fixpoint first_match (docs : list dict) (query : dict) (i : nat)
    : result (option nat) :=
  match docs with
  | [] => Ok None
  | doc :: rest =>
      m ← _matches_query (VDict doc) query;
      if (m : bool) then Ok (Some i) else first_match rest query (S i)
  end.

Definition upsert_one (c : string) (document query : dict) (db : store)
    : result () * store :=
  let db := ensure_collection c db in
  let docs := collection db c in
  match first_match docs query 0 with
  | Raise e => (Raise e, db)
  | Ok (Some i) => (Ok (), <[c := <[i := deepcopy document]> docs]> db)
  | Ok None =>
      if id_taken docs document
      then (Raise (DuplicateKeyError (dict_get_or_none document "_id")), db)
      else (Ok (), <[c := docs ++ [deepcopy document]]> db)
  end.

(** The loop of [update_many] mutates the documents as it goes: when a
    later document raises, the earlier updates stay. *)
Fixpoint update_loop (docs : list dict) (query document : dict)
    : list dict * option exn :=
  match docs with
  | [] => ([], None)
  | doc :: rest =>
      match _matches_query (VDict doc) query with
      | Raise e => (doc :: rest, Some e)
      | Ok m =>
          let doc' := if m then dict_update doc (deepcopy document) else doc in
          let '(rest', e) := update_loop rest query document in
          (doc' :: rest', e)
      end
  end.

Definition update_many (c : string) (query document : dict) (db : store)
    : result () * store :=
  match db !! c with
  | None => (Ok (), db)
  | Some docs =>
      let '(docs', e) := update_loop docs query document in
      (match e with Some e => Raise e | None => Ok () end, <[c := docs']> db)
  end.

Definition delete (c : string) (query : dict) (db : store)
    : result () * store :=
  match db !! c with
  | None => (Ok (), db)
  | Some docs =>
      (Ok (), <[c := List.filter (λ doc, negb (flat_matches doc query)) docs]> db)
  end.

(** ** Specification-side notions *)

(** [document.get("_id")]. *)
Definition doc_id (document : dict) : value := dict_get_or_none document "_id".

(** A stored document has the id of [document], under [==]. *)
Definition collides (docs : list dict) (document : dict) : Prop :=
  ∃ doc, doc ∈ docs ∧ py_eq (doc_id doc) (doc_id document) = true.

(** The flat predicate in the words of the specification: every top-level
    pair of the query occurs among the pairs of the record, values compared
    with [==]. *)
Definition query_pairs_in (doc query : dict) : Prop :=
  ∀ k v, (k, v) ∈ query → ∃ w, dict_get doc k = Some w ∧ py_eq w v = true.

(** [counts P l n]: exactly [n] members of [l] satisfy [P]. *)
Inductive counts {A : Type} (P : A → Prop) : list A → nat → Prop :=
| counts_nil : counts P [] 0
| counts_hit x l n : P x → counts P l n → counts P (x :: l) (S n)
| counts_miss x l n : ¬ P x → counts P l n → counts P (x :: l) n.

(** The shape under which the recursive predicate cannot raise: wherever
    the query holds a mapping at a key of the record, the record holds a
    mapping too, at every depth. *)
Fixpoint mapping_shaped (query : value) (doc : value) {struct query} : bool :=
  match query, doc with
  | VDict items, VDict fields =>
      (fix each (l : dict) : bool :=
         match l with
         | [] => true
         | (key, value) :: l' =>
             match value, dict_get fields key with
             | VDict _, Some sub => mapping_shaped value sub
             | _, _ => true
             end && each l'
         end) items
  | _, _ => false
  end.

(** A value on which [key in v] raises: not a dict, a string or a list. *)
Definition opaque_scalar (v : value) : bool :=
  match v with
  | VNone | VBool _ | VInt _ => true
  | _ => false
  end.

(** [find_one_loop] on values, under a name that the operations of the
    heap layer do not take. *)
Abbreviation value_find_one_loop := find_one_loop.
Abbreviation value_update_loop := update_loop.
Abbreviation value_update_many := update_many.
Abbreviation value_collection := collection.

(** ** Objects with identity *)

(** The layer below gives Python's mutable objects an address.  A [ref]
    is what a variable, a dict value or a list slot holds: a scalar, or
    the address of a dict or list in the heap.  The heap is the list of
    all objects in allocation order, the address of an object being its
    index; the collections of the store hold the addresses of their
    documents. *)
Module Heap.

(** Addresses. *)
Abbreviation loc := nat.

Inductive ref : Type :=
| RNone
| RBool (b : bool)
| RInt (z : Z)
| RStr (s : string)
| RObj (l : loc).

Inductive obj : Type :=
| ODict (items : list (string * ref))
| OList (xs : list ref).

Abbreviation heap := (list obj).

(** The table of [copy.deepcopy]: original address to address of the copy. *)
Abbreviation memo := (gmap loc loc).

(** [LocalSymbolicMemory.db]: the documents of a collection, by address. *)
Abbreviation collections := (gmap string (list loc)).

Abbreviation state := (heap * collections)%type.

(** The members of an object, in order. *)
Definition refs_of (o : obj) : list ref :=
  match o with
  | ODict items => items.*2
  | OList xs => xs
  end.

(** The object with the keys of [o] and the members [rs]. *)
Definition with_refs (o : obj) (rs : list ref) : obj :=
  match o with
  | ODict items => ODict (zip items.*1 rs)
  | OList _ => OList rs
  end.

(** The value with the keys of [o] and the member values [vs]. *)
Definition value_of (o : obj) (vs : list value) : value :=
  match o with
  | ODict items => VDict (zip items.*1 vs)
  | OList _ => VList vs
  end.

(** The value an object graph denotes, unfolded to depth [n]: [None] when
    the depth does not suffice (on a cyclic graph no depth does) or an
    address is not allocated. *)
Fixpoint reify (n : nat) (h : heap) (r : ref) : option value :=
  match r with
  | RNone => Some VNone
  | RBool b => Some (VBool b)
  | RInt z => Some (VInt z)
  | RStr s => Some (VStr s)
  | RObj l =>
      match n with
      | O => None
      | S n' =>
          o ← h !! l;
          vs ← mapM (reify n' h) (refs_of o);
          Some (value_of o vs)
      end
  end.

(** Reading an object as a value; a path without repetition visits at most
    [length h] objects. *)
Definition read (h : heap) (r : ref) : option value := reify (S (length h)) h r.

Definition read_dict (h : heap) (l : loc) : option dict :=
  match read h (RObj l) with
  | Some (VDict items) => Some items
  | _ => None
  end.

Definition read_docs (h : heap) (docs : list loc) : option (list dict) :=
  mapM (read_dict h) docs.

(** Copying the members of an object, left to right, heap and memo table
    threaded through. *)
Fixpoint copy_all (copy : ref → heap * memo → option (ref * (heap * memo)))
    (rs : list ref) (st : heap * memo) : option (list ref * (heap * memo)) :=
  match rs with
  | [] => Some ([], st)
  | r :: rs' =>
      '(r', st1) ← copy r st;
      '(rs'', st2) ← copy_all copy rs' st1;
      Some (r' :: rs'', st2)
  end.

(** [copy.deepcopy(x, memo)]: scalars are returned as they are; an object
    found in the memo table is answered from it; otherwise an empty object
    of the same kind is allocated and entered in the table, and then filled
    with the copies of the members.  [n] bounds the depth of the
    recursion. *)
Fixpoint deepcopy_memo (n : nat) (r : ref) (st : heap * memo)
    : option (ref * (heap * memo)) :=
  match r with
  | RObj l =>
      match st.2 !! l with
      | Some l' => Some (RObj l', st)
      | None =>
          match n with
          | O => None
          | S n' =>
              o ← st.1 !! l;
              let l' := length st.1 in
              '(rs, st') ← copy_all (deepcopy_memo n') (refs_of o)
                             (st.1 ++ [with_refs o []], <[l := l']> st.2);
              Some (RObj l', (<[l' := with_refs o rs]> st'.1, st'.2))
          end
      end
  | _ => Some (r, st)
  end.

(** [copy.deepcopy(x)]: a fresh memo table; the depth never exceeds the
    number of objects, each being entered in the table when first met. *)
Definition deepcopy (h : heap) (r : ref) : option (ref * heap) :=
  '(r', st) ← deepcopy_memo (S (length h)) r (h, ∅);
  Some (r', st.1).

(** The copy of an object, by address. *)
Definition deepcopy_obj (h : heap) (l : loc) : option (loc * heap) :=
  '(r, h') ← deepcopy h (RObj l);
  match r with
  | RObj l' => Some (l', h')
  | _ => None
  end.

(** The addresses held in a list of members that all are objects. *)
Definition objects (rs : list ref) : option (list loc) :=
  mapM (λ r, match r with RObj l => Some l | _ => None end) rs.

Definition collection (db : collections) (c : string) : list loc :=
  default [] (db !! c).

Definition ensure_collection (c : string) (db : collections) : collections :=
  match db !! c with
  | Some _ => db
  | None => <[c := []]> db
  end.

(** The operations.  The result is [None] where the model does not follow
    the source: a document that is cyclic or not a dict.  The tests on
    documents are those of the value layer, applied to the documents as
    read from the heap; queries are passed as values, only read by the
    source. *)

Definition count (c : string) (query : dict) (st : state)
    : option (result nat * state) :=
  match st.2 !! c with
  | None => Some (Ok 0%nat, st)
  | Some docs =>
      vals ← read_docs st.1 docs;
      Some (Ok (length (List.filter (λ doc, flat_matches doc query) vals)), st)
  end.

Fixpoint find_one_loop (docs : list loc) (query : dict) (st : state)
    : option (result (option loc) * state) :=
  match docs with
  | [] => Some (Ok None, st)
  | d :: rest =>
      doc ← read_dict st.1 d;
      match _matches_query (VDict doc) query with
      | Raise e => Some (Raise e, st)
      | Ok true =>
          '(d', h') ← deepcopy_obj st.1 d;
          Some (Ok (Some d'), (h', st.2))
      | Ok false => find_one_loop rest query st
      end
  end.

Definition find_one (c : string) (query : dict) (st : state)
    : option (result (option loc) * state) :=
  match st.2 !! c with
  | None => Some (Ok None, st)
  | Some docs => find_one_loop docs query st
  end.

(** [self._apply_projection(doc, projection) if projection else doc]: the
    projection builds a new dict that shares the members of the document. *)
Definition project (projection : option dict) (d : loc) (h : heap)
    : option (loc * heap) :=
  match projection with
  | Some (f :: fs) =>
      match h !! d with
      | Some (ODict items) =>
          Some (length h,
                h ++ [ODict (List.filter (λ kv, projected (f :: fs) kv.1) items)])
      | _ => None
      end
  | _ => Some (d, h)
  end.

(** [find], iterated to its end: the records it yields and the exception
    that ends it, if any. *)
Fixpoint find_loop (docs : list loc) (query : dict) (projection : option dict)
    (st : state) : option ((list loc * option exn) * state) :=
  match docs with
  | [] => Some (([], None), st)
  | d :: rest =>
      doc ← read_dict st.1 d;
      match _matches_query (VDict doc) query with
      | Raise e => Some (([], Some e), st)
      | Ok true =>
          '(p, h1) ← project projection d st.1;
          '(d', h2) ← deepcopy_obj h1 p;
          '((ys, e), st') ← find_loop rest query projection (h2, st.2);
          Some ((d' :: ys, e), st')
      | Ok false => find_loop rest query projection st
      end
  end.

Definition find (c : string) (query : dict) (projection : option dict)
    (st : state) : option ((list loc * option exn) * state) :=
  match st.2 !! c with
  | None => Some (([], None), st)
  | Some docs => find_loop docs query projection st
  end.

Definition insert_one (c : string) (document : loc) (st : state)
    : option (result () * state) :=
  let db := ensure_collection c st.2 in
  let docs := collection db c in
  vals ← read_docs st.1 docs;
  new ← read_dict st.1 document;
  if id_taken vals new
  then Some (Raise (DuplicateKeyError (doc_id new)), (st.1, db))
  else
    '(d', h') ← deepcopy_obj st.1 document;
    Some (Ok (), (h', <[c := docs ++ [d']]> db)).

(** [insert]: [documents] is the address of the list of the batch. *)
Definition insert (c : string) (documents : loc) (st : state)
    : option (result () * state) :=
  let db := ensure_collection c st.2 in
  let docs := collection db c in
  vals ← read_docs st.1 docs;
  batch ← st.1 !! documents;
  ds ← objects (refs_of batch);
  news ← read_docs st.1 ds;
  match first_duplicate vals news with
  | Some id => Some (Raise (DuplicateKeyError id), (st.1, db))
  | None =>
      '(l', h') ← deepcopy_obj st.1 documents;
      copy ← h' !! l';
      ds' ← objects (refs_of copy);
      Some (Ok (), (h', <[c := docs ++ ds']> db))
  end.

Fixpoint first_match (docs : list loc) (query : dict) (i : nat) (h : heap)
    : option (result (option nat)) :=
  match docs with
  | [] => Some (Ok None)
  | d :: rest =>
      doc ← read_dict h d;
      match _matches_query (VDict doc) query with
      | Raise e => Some (Raise e)
      | Ok true => Some (Ok (Some i))
      | Ok false => first_match rest query (S i) h
      end
  end.

Definition upsert_one (c : string) (document : loc) (query : dict)
    (st : state) : option (result () * state) :=
  let db := ensure_collection c st.2 in
  let docs := collection db c in
  found ← first_match docs query 0 st.1;
  match found with
  | Raise e => Some (Raise e, (st.1, db))
  | Ok (Some i) =>
      '(d', h') ← deepcopy_obj st.1 document;
      Some (Ok (), (h', <[c := <[i := d']> docs]> db))
  | Ok None =>
      vals ← read_docs st.1 docs;
      new ← read_dict st.1 document;
      if id_taken vals new
      then Some (Raise (DuplicateKeyError (doc_id new)), (st.1, db))
      else
        '(d', h') ← deepcopy_obj st.1 document;
        Some (Ok (), (h', <[c := docs ++ [d']]> db))
  end.

(** [d[key] = r] and [d.update(other)] on the items of a dict object. *)
Fixpoint items_set (items : list (string * ref)) (key : string) (r : ref)
    : list (string * ref) :=
  match items with
  | [] => [(key, r)]
  | (k, w) :: items' =>
      if String.eqb k key then (k, r) :: items'
      else (k, w) :: items_set items' key r
  end.

Definition items_update (items other : list (string * ref))
    : list (string * ref) :=
  fold_left (λ acc kv, items_set acc kv.1 kv.2) other items.

(** [doc.update(deepcopy(document))] on the heap. *)
Definition update_doc (d document : loc) (h : heap) : option heap :=
  '(p, h') ← deepcopy_obj h document;
  match h' !! d, h' !! p with
  | Some (ODict items), Some (ODict other) =>
      Some (<[d := ODict (items_update items other)]> h')
  | _, _ => None
  end.

Fixpoint update_loop (docs : list loc) (query : dict) (document : loc)
    (h : heap) : option (option exn * heap) :=
  match docs with
  | [] => Some (None, h)
  | d :: rest =>
      doc ← read_dict h d;
      match _matches_query (VDict doc) query with
      | Raise e => Some (Some e, h)
      | Ok true =>
          h' ← update_doc d document h;
          update_loop rest query document h'
      | Ok false => update_loop rest query document h
      end
  end.

Definition update_many (c : string) (query : dict) (document : loc)
    (st : state) : option (result () * state) :=
  match st.2 !! c with
  | None => Some (Ok (), st)
  | Some docs =>
      '(e, h') ← update_loop docs query document st.1;
      Some (match e with Some e => Raise e | None => Ok () end, (h', st.2))
  end.

Definition delete (c : string) (query : dict) (st : state)
    : option (result () * state) :=
  match st.2 !! c with
  | None => Some (Ok (), st)
  | Some docs =>
      vals ← read_docs st.1 docs;
      Some (Ok (),
            (st.1,
             <[c := (List.filter (λ dv, negb (flat_matches dv.2 query))
                       (zip docs vals)).*1]> st.2))
  end.

(** *** Notions for the proofs about the heap *)

Local Open Scope nat_scope.

(** A member that is an address points into [h]. *)
Definition ref_in (h : heap) (r : ref) : Prop :=
  match r with
  | RObj l => l < length h
  | _ => True
  end.

(** No object of the heap holds a dangling address. *)
Definition closed (h : heap) : Prop :=
  ∀ l o, h !! l = Some o → Forall (ref_in h) (refs_of o).

(** What the memo table makes of a member. *)
Definition image (m : memo) (r : ref) : option ref :=
  match r with
  | RObj l => RObj <$> m !! l
  | _ => Some r
  end.

(** The number of objects of [h0] that the table has not seen. *)
Definition unseen (h0 : heap) (m : memo) : nat :=
  size (set_seq 0 (length h0) ∖ dom m : gset nat).

(** The state of a [deepcopy] of objects of [h0] in progress: [h] extends
    [h0] by the copies, which the table lists one to one; the copy of an
    object is filled with the images of the members of the original, but
    for the objects [pending], whose members are being copied. *)
Record copying (h0 : heap) (pending : loc → Prop) (h : heap) (m : memo)
    : Prop := {
  copying_prefix : h0 `prefix_of` h;
  copying_bounds : ∀ l l', m !! l = Some l' → l < length h0 ∧ length h0 ≤ l' < length h;
  copying_inj : ∀ l1 l2 l', m !! l1 = Some l' → m !! l2 = Some l' → l1 = l2;
  copying_onto : ∀ l', length h0 ≤ l' < length h → ∃ l, m !! l = Some l';
  copying_done : ∀ l l',
    m !! l = Some l' → ¬ pending l →
    ∃ o rs, h0 !! l = Some o ∧ h !! l' = Some (with_refs o rs) ∧
            Forall2 (λ r r', image m r = Some r') (refs_of o) rs
}.

(** A member that is an address lies in a set of addresses. *)
Definition ref_within (region : loc → Prop) (r : ref) : Prop :=
  match r with
  | RObj l => region l
  | _ => True
  end.

(** The objects of a region hold addresses of the region only. *)
Definition region_closed (region : loc → Prop) (h : heap) : Prop :=
  ∀ l o, region l → h !! l = Some o → Forall (ref_within region) (refs_of o).

(** The addresses that can be reached from a member. *)
Inductive reach (h : heap) : ref → loc → Prop :=
| reach_here l : reach h (RObj l) l
| reach_member l o r x :
    h !! l = Some o → r ∈ refs_of o → reach h r x → reach h (RObj l) x.

(** The part of the heap the store can reach: its documents and what they
    hold. *)
Definition owned (st : state) (x : loc) : Prop :=
  ∃ c d, d ∈ collection st.2 c ∧ reach st.1 (RObj d) x.

(** The documents of a collection as values: what the reading operations
    depend on. *)
Definition view (st : state) (c : string) : option (list dict) :=
  read_docs st.1 (collection st.2 c).

(** A mutation by the caller: the object at [x] becomes [o]. *)
Definition poke (x : loc) (o : obj) (st : state) : state :=
  (<[x := o]> st.1, st.2).


(** A heap in the course of an operation on the store [st]: the objects
    outside the store are untouched, and the objects of the store and the
    new objects hold no address of another object. *)
Record grown (st : state) (h : heap) : Prop := {
  grown_length : length st.1 ≤ length h;
  grown_closed : closed h;
  grown_frame : ∀ x, x < length st.1 → ¬ owned st x → h !! x = st.1 !! x;
  grown_region : region_closed (λ x, owned st x ∨ length st.1 ≤ x) h
}.



(** The items of a dict object read as the items of a dict. *)
Definition items_read (k : nat) (h : heap)
    (items : list (string * ref)) (doc : dict) : Prop :=
  Forall2 (λ kr kv, kr.1 = kv.1 ∧ reify k h kr.2 = Some kv.2) items doc.

(** No object of the list is held by another object of the list: none is
    reached from another, and none stands at two positions. *)
Definition apart (h : heap) (ds : list loc) : Prop :=
  ∀ i j di dj, ds !! i = Some di → ds !! j = Some dj → i ≠ j →
               ¬ reach h (RObj di) dj.


(** *** A caller and a store *)

(** The caller holds the record of the scenario at address 1, its address
    mapping at address 0. *)
Definition caller_heap : heap :=
  [ODict [("city", RStr "NYC")];
   ODict [("_id", RStr "u1"); ("name", RStr "Alice"); ("address", RObj 0)]].

(** The store after [insert_one("users", record)]: the copy of the record
    is at address 2, the copy of its address mapping at 3. *)
Definition stored : state :=
  (caller_heap ++
   [ODict [("_id", RStr "u1"); ("name", RStr "Alice"); ("address", RObj 3)];
    ODict [("city", RStr "NYC")]],
   {["users" := [2]]}).

(** The state after [find_one("users", {name: "Alice"})] on [stored]: the
    record returned is at address 4. *)
Definition found : state :=
  (stored.1 ++
   [ODict [("_id", RStr "u1"); ("name", RStr "Alice"); ("address", RObj 5)];
    ODict [("city", RStr "NYC")]],
   stored.2).

(** [closed], as a test. *)
Definition closedb (h : heap) : bool :=
  forallb (λ o, forallb (λ r, match r with
                              | RObj l => l <? length h
                              | _ => true
                              end) (refs_of o)) h.

(** [region_closed] for a list of addresses, as a test. *)
Definition region_closedb (h : heap) (ls : list loc) : bool :=
  forallb (λ l, match h !! l with
                | Some o => forallb (λ r, match r with
                                          | RObj y => bool_decide (y ∈ ls)
                                          | _ => true
                                          end) (refs_of o)
                | None => true
                end) ls.

(** [apart], as a test: each object comes with a list of addresses that
    holds it, is closed, and holds no other object of the list. *)
Definition apartb (h : heap) (regions : list (loc * list loc)) : bool :=
  bool_decide (NoDup regions.*1) &&
  forallb (λ dl, bool_decide (dl.1 ∈ dl.2) && region_closedb h dl.2 &&
                 forallb (λ d', bool_decide (d' = dl.1)
                                || negb (bool_decide (d' ∈ dl.2)))
                   regions.*1) regions.

(** A store whose only record, at address 0, holds an integer at [a]. *)
Definition scalar_store : state :=
  ([ODict [("a", RInt 5)]], {["c" := [0]]}).

(** A store with three records, none of which holds another; the caller
    holds a patch at address 5. *)
Definition nested_store : state :=
  ([ODict [("b", RInt 1)];
    ODict [("a", RObj 0)];
    ODict [("a", RInt 5)];
    ODict [("b", RInt 1)];
    ODict [("a", RObj 3)];
    ODict [("x", RInt 1)]],
   {["c" := [1; 2; 4]]}).

(** A batch whose second record holds the first: the list of the batch is
    at address 2, the second record at 3, and a patch at 4. *)
Definition sharing_heap : heap :=
  caller_heap ++
  [OList [RObj 1; RObj 3];
   ODict [("_id", RStr "u2"); ("child", RObj 1)];
   ODict [("name", RStr "Alicia")]].

End Heap.

(** What the loop of [update_many] does to one record. *)
Definition patched (query patch doc : dict) : dict :=
  match _matches_query (VDict doc) query with
  | Ok true => dict_update doc patch
  | _ => doc
  end.

(** ** The documents of the specification's scenario *)

Module Scenario.

Definition alice : dict :=
  [("_id", VStr "u1"); ("name", VStr "Alice");
   ("address", VDict [("city", VStr "NYC")])].

(** The query [{address: {city: "NYC"}}]. *)
Definition by_city : dict := [("address", VDict [("city", VStr "NYC")])].

(** A record whose address has one more field than the query. *)
Definition alice_zip : dict :=
  [("_id", VStr "u1"); ("name", VStr "Alice");
   ("address", VDict [("city", VStr "NYC"); ("zip", VStr "10001")])].

(** The store after [start] and the insertion of a record. *)
Definition after_insert (record : dict) : store :=
  (insert_one "users" record (start ∅)).2.

(** A collection whose first record holds a scalar where the query
    [{a: {b: 1}}] holds a mapping, followed by a record that matches. *)
Definition scalar_a : dict := [("a", VInt 5)].
Definition nested_a : dict := [("a", VDict [("b", VInt 1)])].
Definition by_a_b : dict := [("a", VDict [("b", VInt 1)])].
Definition scalar_first : store := {["c" := [scalar_a; nested_a]]}.
Definition fresh : dict := [("_id", VStr "n")].

(** Queries with a mapping at a key where the record holds an integer, on
    which the predicate does not raise: the mapping is empty, or an earlier
    key of the query already fails. *)
Definition by_a_empty : dict := [("a", VDict [])].
Definition by_z_then_a : dict := [("z", VInt 0); ("a", VDict [("b", VInt 1)])].
Definition scalar_only : store := {["c" := [scalar_a]]}.

(** Two records whose [_id] is a mapping, the second a part of the
    first. *)
Definition wide_id : dict := [("_id", VDict [("a", VInt 1); ("b", VInt 2)])].

(** Two records without [_id]. *)
Definition anonymous_a : dict := [("name", VStr "a")].
Definition anonymous_b : dict := [("name", VStr "b")].

End Scenario.

(** ** Notions for further properties of the store *)



(** The identity invariant of a collection: no record has the [_id] of a
    record before it, the comparison being that of [insert_one], stored
    record on the left. *)
Definition distinct_ids (docs : list dict) : Prop :=
  ∀ i j d1 d2,
    (i < j)%nat → docs !! i = Some d1 → docs !! j = Some d2 →
    py_eq (doc_id d1) (doc_id d2) = false.

(** ** The url of the Chroma vector store *)

(** [ChromaVectorStoreConfig.validate_url] of
    [sdk/eidolon_sdk/impl/memory/chroma_vector_store.py].  The validator
    returns nothing or raises [ValueError] with a message.  It calls
    [replace_env_var_in_string], whose module is not among the sources, and
    asks [pathlib] for the resolved path and whether that is absolute:
    these three are the parameters of the model; strings are sequences of
    characters. *)
Module Chroma.

Inductive outcome : Type :=
| Returns
| ValueError (message : string).

Definition missing_path : string := "file:// must be followed by a path".
Definition bad_scheme : string :=
  "url must start with file://, http://, or https://".

(** [url[7:]]. *)
Definition path_of (url : string) : string :=
  String.substring 7 (String.length url - 7) url.

Section validate_url.
Variable replace_env_var_in_string : string → string.
(** [str(Path(value).resolve())] and [Path(value).resolve().is_absolute()]. *)
Variable resolve : string → string.
Variable is_absolute : string → bool.

Definition not_absolute (path value : string) : string :=
  "The root_dir must be an absolute path. Received: " +:+ path +:+ "->"
  +:+ value.

Definition validate_url (url : string) : outcome :=
  if String.prefix "file://" url then
    if (String.length url <? 8)%nat then ValueError missing_path
    else
      let path := path_of url in
      if (String.length path =? 0)%nat then ValueError missing_path
      else
        let value := replace_env_var_in_string path in
        let path := resolve value in
        if negb (is_absolute value) then ValueError (not_absolute path value)
        else Returns
  else if negb (String.prefix "http://" url || String.prefix "https://" url)
  then ValueError bad_scheme
  else Returns.

End validate_url.

End Chroma.

(** * Basic facts *)

Section store_facts.
Implicit Types (db : store) (c : string) (docs : list dict).

Lemma ensure_collection_lookup c db :
  ensure_collection c db !! c = Some (collection db c).
Proof.
  unfold ensure_collection, collection.
  destruct (db !! c) as [docs|] eqn:E; simpl.
  - exact E.
  - apply lookup_insert_eq.
Qed.

Lemma ensure_collection_other c c' db :
  c ≠ c' → ensure_collection c db !! c' = db !! c'.
Proof.
  intros Hne. unfold ensure_collection.
  destruct (db !! c); [done|]. by rewrite lookup_insert_ne.
Qed.

Lemma collection_ensure c db :
  collection (ensure_collection c db) c = collection db c.
Proof. unfold collection at 1. by rewrite ensure_collection_lookup. Qed.

Lemma collection_insert c docs db : collection (<[c := docs]> db) c = docs.
Proof. unfold collection. by rewrite lookup_insert_eq. Qed.

Lemma collection_insert_ne c c' docs db :
  c ≠ c' → collection (<[c := docs]> db) c' = collection db c'.
Proof. intros. unfold collection. by rewrite lookup_insert_ne. Qed.

Lemma ensure_collection_present c docs db :
  db !! c = Some docs → ensure_collection c db = db.
Proof. intros E. unfold ensure_collection. by rewrite E. Qed.

Lemma id_taken_collides docs document :
  id_taken docs document = true ↔ collides docs document.
Proof.
  unfold id_taken, collides. rewrite existsb_exists.
  split; intros (doc & Hin & Heq); exists doc; split; try done.
  - by apply list_elem_of_In.
  - by apply list_elem_of_In.
Qed.

Lemma id_taken_free docs document :
  id_taken docs document = false ↔ ¬ collides docs document.
Proof.
  rewrite <- id_taken_collides.
  destruct (id_taken docs document); split; congruence.
Qed.

Lemma first_duplicate_none docs documents :
  first_duplicate docs documents = None ↔
  ∀ document, document ∈ documents → ¬ collides docs document.
Proof.
  induction documents as [|d rest IH]; simpl.
  - split; [|done]. intros _ document Hin. by apply elem_of_nil in Hin.
  - destruct (id_taken docs d) eqn:E.
    + split; [done|]. intros H. exfalso.
      apply (H d); [left|]. by apply id_taken_collides.
    + rewrite IH. split.
      * intros H document Hin. apply elem_of_cons in Hin as [->|Hin].
        -- by apply id_taken_free.
        -- by apply H.
      * intros H document Hin. apply H. by right.
Qed.

(** The id reported by the checking loop belongs to the first document
    of the batch that collides. *)
Lemma first_duplicate_some docs documents id :
  first_duplicate docs documents = Some id →
  ∃ i document, documents !! i = Some document ∧ id = doc_id document ∧
    collides docs document ∧
    ∀ j other, (j < i)%nat → documents !! j = Some other →
               ¬ collides docs other.
Proof.
  induction documents as [|d rest IH]; simpl; [done|].
  destruct (id_taken docs d) eqn:E.
  - intros [= <-]. exists 0%nat, d. split_and!; try done.
    + by apply id_taken_collides.
    + intros j other Hj. lia.
  - intros H. destruct (IH H) as (i & document & Hi & Hid & Hc & Hfirst).
    exists (S i), document. split_and!; try done.
    intros [|j] other Hj Hlk; simpl in Hlk.
    + injection Hlk as <-. by apply id_taken_free.
    + apply (Hfirst j); [lia|done].
Qed.
End store_facts.

(** * Facts about values and the matcher *)

Section value_facts.
Implicit Types (v w : value) (d : dict) (k key : string).

Lemma existsb_eqb_elem k (keys : list string) :
  existsb (String.eqb k) keys = true ↔ k ∈ keys.
Proof.
  rewrite existsb_exists. split.
  - intros (x & Hin & Heq). apply String.eqb_eq in Heq as ->.
    by apply list_elem_of_In.
  - intros Hin. exists k. split; [by apply list_elem_of_In|].
    apply String.eqb_refl.
Qed.

Lemma nodup_keys_NoDup (keys : list string) :
  nodup_keys keys = true ↔ NoDup keys.
Proof.
  induction keys as [|k keys IH]; simpl.
  - split; [constructor|done].
  - rewrite andb_true_iff, negb_true_iff, IH, NoDup_cons.
    rewrite <- existsb_eqb_elem.
    destruct (existsb (String.eqb k) keys); split; intros []; split; congruence.
Qed.

Lemma dict_get_Some_elem d k v : dict_get d k = Some v → (k, v) ∈ d.
Proof.
  induction d as [|[k' v'] d IH]; simpl; [done|].
  destruct (String.eqb k' k) eqn:E.
  - apply String.eqb_eq in E as ->. intros [= ->]. left.
  - intros H. right. by apply IH.
Qed.

Lemma dict_get_None d k : dict_get d k = None ↔ k ∉ map fst d.
Proof.
  induction d as [|[k' v'] d IH]; simpl.
  - split; [|done]. intros _ H. by apply elem_of_nil in H.
  - rewrite not_elem_of_cons. destruct (String.eqb k' k) eqn:E.
    + apply String.eqb_eq in E as ->. split; [done|]. by intros [].
    + apply String.eqb_neq in E. rewrite IH. split; [|by intros []].
      intros H. split; [congruence|done].
Qed.




Lemma _matches_query_nil v : _matches_query v [] = Ok true.
Proof. reflexivity. Qed.

(** One turn of the loop of [_matches_query]. *)
Lemma _matches_query_cons doc key value rest :
  _matches_query doc ((key, value) :: rest) =
    (present ← py_contains doc key;
     if negb present then Ok false
     else if is_dict value then
       sub ← py_getitem doc key;
       m ← matches_value value sub;
       if negb m then Ok false else _matches_query doc rest
     else
       cur ← py_getitem doc key;
       if negb (py_eq cur value) then Ok false else _matches_query doc rest).
Proof. reflexivity. Qed.

Lemma matches_value_dict sub doc :
  matches_value (VDict sub) doc = _matches_query doc sub.
Proof. reflexivity. Qed.

End value_facts.


(** * The claims *)

(** ** Matching: [find_one] against [delete] *)

(** C1, as stated, fails: in the scenario the stored nested mapping is equal
    to the nested mapping of the query, so the flat predicate of [delete]
    matches as well and the record is removed. *)
Lemma C1_delete_removes_the_record :
  ¬ ((find_one "users" Scenario.by_city
        (Scenario.after_insert Scenario.alice)).1 = Ok (Some Scenario.alice) ∧
     collection (delete "users" Scenario.by_city
                   (Scenario.after_insert Scenario.alice)).2 "users" =
     collection (Scenario.after_insert Scenario.alice) "users").
Proof. intros [_ H]. vm_compute in H. discriminate H. Qed.

(** C1 (amended): after inserting the record of the scenario, [find_one]
    with [{address: {city: "NYC"}}] returns it and [delete] with the same
    query removes it, the count of the collection going from 1 to 0.  The
    two predicates part when the stored address has a further field: then
    [find_one] still returns the record and [delete] removes nothing. *)
Theorem C1_divergent_matching :
  (find_one "users" Scenario.by_city
     (Scenario.after_insert Scenario.alice)).1 = Ok (Some Scenario.alice) ∧
  (count "users" [] (Scenario.after_insert Scenario.alice)).1 = Ok 1%nat ∧
  collection (delete "users" Scenario.by_city
                (Scenario.after_insert Scenario.alice)).2 "users" = [] ∧
  (count "users" []
     (delete "users" Scenario.by_city
        (Scenario.after_insert Scenario.alice)).2).1 = Ok 0%nat ∧
  (find_one "users" Scenario.by_city
     (Scenario.after_insert Scenario.alice_zip)).1
    = Ok (Some Scenario.alice_zip) ∧
  collection (delete "users" Scenario.by_city
                (Scenario.after_insert Scenario.alice_zip)).2 "users" =
  collection (Scenario.after_insert Scenario.alice_zip) "users" ∧
  (count "users" []
     (delete "users" Scenario.by_city
        (Scenario.after_insert Scenario.alice_zip)).2).1 = Ok 1%nat.
Proof. repeat split; vm_compute; reflexivity. Qed.

(** ** Batch insertion *)

Lemma insert_raises (c : string) (documents : list dict) (db : store) id :
  first_duplicate (collection db c) documents = Some id →
  insert c documents db = (Raise (DuplicateKeyError id), ensure_collection c db).
Proof. intros H. unfold insert. by rewrite collection_ensure, H. Qed.

Lemma insert_appends (c : string) (documents : list dict) (db : store) :
  first_duplicate (collection db c) documents = None →
  insert c documents db = (Ok (), <[c := collection db c ++ documents]> db).
Proof.
  intros H. unfold insert. rewrite collection_ensure, H. f_equal.
  unfold ensure_collection, deepcopy.
  destruct (db !! c); [done|]. apply insert_insert_eq.
Qed.

(** C2: if a record of the batch has the [_id] of a stored record, [insert]
    raises [DuplicateKeyError] with the id of the first such record of the
    batch and the contents of every collection are as before; without such
    a record the whole batch is appended, in batch order. *)
Theorem C2_insert_all_or_nothing (c : string) (documents : list dict)
    (db : store) :
  ((∃ document, document ∈ documents ∧ collides (collection db c) document) →
   ∃ i document,
     documents !! i = Some document ∧
     collides (collection db c) document ∧
     (∀ j other, (j < i)%nat → documents !! j = Some other →
                 ¬ collides (collection db c) other) ∧
     (insert c documents db).1 = Raise (DuplicateKeyError (doc_id document)) ∧
     ∀ c', collection (insert c documents db).2 c' = collection db c') ∧
  ((∀ document, document ∈ documents → ¬ collides (collection db c) document) →
   insert c documents db = (Ok (), <[c := collection db c ++ documents]> db)).
Proof.
  split.
  - intros (document & Hin & Hcol).
    destruct (first_duplicate (collection db c) documents) as [id|] eqn:E.
    + destruct (first_duplicate_some _ _ _ E) as (i & d & Hi & -> & Hc & Hfirst).
      exists i, d. rewrite (insert_raises _ _ _ _ E). simpl.
      split_and!; try done.
      intros c'. destruct (decide (c = c')) as [<-|Hne].
      * apply collection_ensure.
      * unfold collection. by rewrite ensure_collection_other.
    + exfalso. by apply (proj1 (first_duplicate_none _ _) E document).
  - intros Hfree. apply insert_appends. by apply first_duplicate_none.
Qed.

(** C8: a batch with two records of the same [_id], none of whose records
    collides with a stored one, is appended whole and in order; the
    collection then holds, at two different positions, two records with
    that [_id]. *)
Theorem C8_intra_batch_duplicates (c : string) (documents : list dict)
    (db : store) (i j : nat) (d1 d2 : dict) :
  i ≠ j →
  documents !! i = Some d1 →
  documents !! j = Some d2 →
  py_eq (doc_id d1) (doc_id d2) = true →
  (∀ document, document ∈ documents → ¬ collides (collection db c) document) →
  (insert c documents db).1 = Ok () ∧
  collection (insert c documents db).2 c = collection db c ++ documents ∧
  ∃ p q r1 r2,
    p ≠ q ∧
    collection (insert c documents db).2 c !! p = Some r1 ∧
    collection (insert c documents db).2 c !! q = Some r2 ∧
    py_eq (doc_id r1) (doc_id r2) = true.
Proof.
  intros Hij Hi Hj Hid Hfree.
  rewrite insert_appends by by apply first_duplicate_none.
  simpl. rewrite collection_insert.
  split_and!; try done.
  exists (length (collection db c) + i)%nat, (length (collection db c) + j)%nat,
    d1, d2.
  split_and!; [lia| | |done].
  - by rewrite lookup_app_r, Nat.add_sub' by lia.
  - by rewrite lookup_app_r, Nat.add_sub' by lia.
Qed.

(** ** Identity: round trip and uniqueness *)

Lemma find_one_loop_skip (docs rest : list dict) (query : dict) :
  (∀ doc, doc ∈ docs → _matches_query (VDict doc) query = Ok false) →
  find_one_loop (docs ++ rest) query = find_one_loop rest query.
Proof.
  induction docs as [|doc docs IH]; intros Hno; [done|].
  simpl. rewrite (Hno doc) by left. simpl.
  apply IH. intros d Hd. apply Hno. by right.
Qed.

Lemma insert_one_raises (c : string) (document : dict) (db : store) :
  id_taken (collection db c) document = true →
  insert_one c document db =
    (Raise (DuplicateKeyError (doc_id document)), ensure_collection c db).
Proof. intros H. unfold insert_one. by rewrite collection_ensure, H. Qed.

Lemma insert_one_appends (c : string) (document : dict) (db : store) :
  id_taken (collection db c) document = false →
  insert_one c document db =
    (Ok (), <[c := collection db c ++ [document]]> db).
Proof.
  intros H. unfold insert_one. rewrite collection_ensure, H. f_equal.
  unfold ensure_collection, deepcopy.
  destruct (db !! c); [done|]. apply insert_insert_eq.
Qed.




Lemma upsert_one_no_match (c : string) (document query : dict) (db : store) :
  first_match (collection db c) query 0 = Ok None →
  upsert_one c document query db = insert_one c document db.
Proof.
  intros H. unfold upsert_one, insert_one. by rewrite collection_ensure, H.
Qed.

(** C4, as stated, fails: a record without [_id] has the id [None], which
    is equal to the id of a stored record without [_id]. *)
Lemma C4_second_record_without_id_is_refused :
  dict_get Scenario.anonymous_a "_id" = None ∧
  dict_get Scenario.anonymous_b "_id" = None ∧
  collection (Scenario.after_insert Scenario.anonymous_a) "users"
    = [Scenario.anonymous_a] ∧
  (insert_one "users" Scenario.anonymous_b
     (Scenario.after_insert Scenario.anonymous_a)).1
    = Raise (DuplicateKeyError VNone) ∧
  (insert_one "users" Scenario.anonymous_b
     (Scenario.after_insert Scenario.anonymous_a)).1 ≠ Ok ().
Proof.
  split_and!; try (vm_compute; reflexivity).
  vm_compute. discriminate.
Qed.

(** C4 (amended): [insert_one], [insert] and the fallback branch of
    [upsert_one] raise [DuplicateKeyError] exactly when the [_id] of an
    incoming record, [None] if the record carries none, is equal to the
    [_id] of a stored record of the same collection, [None] if that record
    carries none; so a record without [_id] is refused by a collection that
    holds a record without [_id]. *)
Theorem C4_duplicate_key_on_equal_ids (c : string) (document query : dict)
    (documents : list dict) (db : store) :
  ((insert_one c document db).1 = Raise (DuplicateKeyError (doc_id document))
     ↔ collides (collection db c) document) ∧
  ((insert_one c document db).1 = Ok ()
     ↔ ¬ collides (collection db c) document) ∧
  ((∃ id, (insert c documents db).1 = Raise (DuplicateKeyError id))
     ↔ ∃ d, d ∈ documents ∧ collides (collection db c) d) ∧
  ((insert c documents db).1 = Ok ()
     ↔ ∀ d, d ∈ documents → ¬ collides (collection db c) d) ∧
  (first_match (collection db c) query 0 = Ok None →
     ((upsert_one c document query db).1
        = Raise (DuplicateKeyError (doc_id document))
        ↔ collides (collection db c) document) ∧
     ((upsert_one c document query db).1 = Ok ()
        ↔ ¬ collides (collection db c) document)) ∧
  (dict_get document "_id" = None →
   (∃ doc, doc ∈ collection db c ∧ dict_get doc "_id" = None) →
   (insert_one c document db).1 = Raise (DuplicateKeyError VNone)).
Proof.
  assert (Hone :
    ((insert_one c document db).1 = Raise (DuplicateKeyError (doc_id document))
       ↔ collides (collection db c) document) ∧
    ((insert_one c document db).1 = Ok ()
       ↔ ¬ collides (collection db c) document)).
  { destruct (id_taken (collection db c) document) eqn:E.
    - rewrite (insert_one_raises _ _ _ E). simpl.
      apply id_taken_collides in E. split; split; try done.
    - rewrite (insert_one_appends _ _ _ E). simpl.
      apply id_taken_free in E. split; split; try done. }
  destruct Hone as [Hraise Hok].
  split_and!; try done.
  - destruct (first_duplicate (collection db c) documents) as [id|] eqn:E.
    + rewrite (insert_raises _ _ _ _ E). simpl. split; [|by eauto].
      intros _. destruct (first_duplicate_some _ _ _ E)
        as (i & d & Hi & _ & Hc & _).
      exists d. split; [|done]. by eapply list_elem_of_lookup_2.
    + rewrite (insert_appends _ _ _ E). simpl. split; [by intros [? ?]|].
      intros (d & Hd & Hc). exfalso.
      by apply (proj1 (first_duplicate_none _ _) E d).
  - destruct (first_duplicate (collection db c) documents) as [id|] eqn:E.
    + rewrite (insert_raises _ _ _ _ E). simpl. split; [done|].
      intros Hfree. apply first_duplicate_none in Hfree. congruence.
    + rewrite (insert_appends _ _ _ E). simpl. split; [|done].
      intros _. by apply first_duplicate_none.
  - intros Hnone. by rewrite (upsert_one_no_match _ _ _ _ Hnone).
  - intros Hdoc (doc & Hin & Hno).
    assert (Hid : doc_id document = VNone)
      by (unfold doc_id, dict_get_or_none; by rewrite Hdoc).
    rewrite <- Hid. apply Hraise. exists doc. split; [done|].
    rewrite Hid. unfold doc_id, dict_get_or_none. by rewrite Hno.
Qed.

(** ** [upsert_one] *)

Lemma first_match_found (docs : list dict) (query : dict) (i n : nat)
    (doc : dict) :
  docs !! i = Some doc →
  _matches_query (VDict doc) query = Ok true →
  (∀ j other, (j < i)%nat → docs !! j = Some other →
              _matches_query (VDict other) query = Ok false) →
  first_match docs query n = Ok (Some (n + i)%nat).
Proof.
  revert i n. induction docs as [|d docs IH]; intros i n Hi Hm Hbefore.
  - done.
  - destruct i as [|i]; simpl in *.
    + injection Hi as ->. rewrite Hm. simpl. by rewrite Nat.add_0_r.
    + rewrite (Hbefore 0%nat d) by (lia || done). simpl.
      rewrite (IH i (S n)); [f_equal; f_equal; lia|done..|].
      intros j other Hj Hlk. apply (Hbefore (S j)); [lia|done].
Qed.

Lemma first_match_none (docs : list dict) (query : dict) (n : nat) :
  (∀ doc, doc ∈ docs → _matches_query (VDict doc) query = Ok false) →
  first_match docs query n = Ok None.
Proof.
  revert n. induction docs as [|d docs IH]; intros n Hno; [done|].
  simpl. rewrite (Hno d) by left. simpl.
  apply IH. intros doc Hdoc. apply Hno. by right.
Qed.

(** C5, as stated, fails: the scan stops at a record on which the predicate
    raises, so a matching record behind it is not replaced. *)
Lemma C5_match_behind_a_raising_record :
  _matches_query (VDict Scenario.nested_a) Scenario.by_a_b = Ok true ∧
  (upsert_one "c" Scenario.fresh Scenario.by_a_b Scenario.scalar_first).1
    = Raise TypeError ∧
  collection
    (upsert_one "c" Scenario.fresh Scenario.by_a_b Scenario.scalar_first).2 "c"
    = [Scenario.scalar_a; Scenario.nested_a].
Proof. split_and!; vm_compute; reflexivity. Qed.

(** C5 (amended): if a stored record matches the query and the predicate
    evaluates to false on every record before it, [upsert_one] replaces
    that record at its position and the length of the collection is
    unchanged; if the predicate evaluates to false on every stored record
    and the [_id] of the new record does not occur in the collection, the
    record is appended and the length grows by one. *)
Theorem C5_upsert_one (c : string) (document query : dict) (db : store) :
  (∀ i doc,
     collection db c !! i = Some doc →
     _matches_query (VDict doc) query = Ok true →
     (∀ j other, (j < i)%nat → collection db c !! j = Some other →
                 _matches_query (VDict other) query = Ok false) →
     (upsert_one c document query db).1 = Ok () ∧
     collection (upsert_one c document query db).2 c
       = <[i := document]> (collection db c) ∧
     collection (upsert_one c document query db).2 c !! i = Some document ∧
     length (collection (upsert_one c document query db).2 c)
       = length (collection db c)) ∧
  ((∀ doc, doc ∈ collection db c →
           _matches_query (VDict doc) query = Ok false) →
   ¬ collides (collection db c) document →
   (upsert_one c document query db).1 = Ok () ∧
   collection (upsert_one c document query db).2 c
     = collection db c ++ [document] ∧
   length (collection (upsert_one c document query db).2 c)
     = S (length (collection db c))).
Proof.
  split.
  - intros i doc Hi Hm Hbefore.
    pose proof (first_match_found _ _ _ 0 _ Hi Hm Hbefore) as Hfound.
    unfold upsert_one. rewrite collection_ensure, Hfound. simpl.
    rewrite collection_insert. unfold deepcopy. split_and!; try done.
    + apply list_lookup_insert_eq. by eapply lookup_lt_Some.
    + apply length_insert.
  - intros Hno Hfree.
    rewrite (upsert_one_no_match _ _ _ _ (first_match_none _ _ 0 Hno)).
    apply id_taken_free in Hfree. rewrite (insert_one_appends _ _ _ Hfree).
    simpl. rewrite collection_insert. split_and!; try done.
    rewrite length_app. simpl. lia.
Qed.

(** ** [update_many] *)

Lemma dict_get_set (d : dict) (k k' : string) (v : value) :
  dict_get (dict_set d k v) k' =
    if String.eqb k k' then Some v else dict_get d k'.
Proof.
  induction d as [|[k0 v0] d IH]; simpl.
  - done.
  - destruct (String.eqb k0 k) eqn:E0; simpl.
    + apply String.eqb_eq in E0 as ->. by destruct (String.eqb k k').
    + destruct (String.eqb k0 k') eqn:E1; [|done].
      apply String.eqb_eq in E1 as ->.
      by rewrite String.eqb_sym, E0.
Qed.

(** [d.update(patch)] read field by field. *)
Lemma dict_get_update (d patch : dict) (k : string) :
  NoDup (map fst patch) →
  dict_get (dict_update d patch) k =
    match dict_get patch k with
    | Some v => Some v
    | None => dict_get d k
    end.
Proof.
  unfold dict_update. revert d.
  induction patch as [|[k1 v1] patch IH]; intros d Hnd; [done|].
  simpl in Hnd. apply NoDup_cons in Hnd as [Hk1 Hnd].
  simpl. rewrite (IH _ Hnd), dict_get_set.
  destruct (String.eqb k1 k) eqn:E; [|done].
  apply String.eqb_eq in E as ->.
  by rewrite (proj2 (dict_get_None patch k) Hk1).
Qed.

Lemma update_loop_total (docs : list dict) (query patch : dict) :
  (∀ doc, doc ∈ docs → ∃ m, _matches_query (VDict doc) query = Ok m) →
  update_loop docs query patch = (map (patched query patch) docs, None).
Proof.
  induction docs as [|d docs IH]; intros Hok; [done|].
  simpl. destruct (Hok d) as [m Hm]; [left|].
  rewrite IH by (intros doc Hdoc; apply Hok; by right).
  unfold patched at 2. rewrite Hm. by destruct m.
Qed.

(** C6, as stated, fails: the loop stops at a record on which the predicate
    raises, and a matching record behind it is left without the patch. *)
Lemma C6_match_behind_a_raising_record :
  _matches_query (VDict Scenario.nested_a) Scenario.by_a_b = Ok true ∧
  (update_many "c" Scenario.by_a_b [("x", VInt 1)] Scenario.scalar_first).1
    = Raise TypeError ∧
  collection
    (update_many "c" Scenario.by_a_b [("x", VInt 1)] Scenario.scalar_first).2
    "c" !! 1%nat = Some Scenario.nested_a ∧
  dict_get Scenario.nested_a "x" = None.
Proof. split_and!; vm_compute; reflexivity. Qed.

(** C6 (amended): when the predicate raises on no record of the collection,
    [update_many] gives every record that matches the query the value of
    the patch at each field the patch names and keeps its other fields;
    the records that do not match are unchanged, and so are their number
    and order.  On a collection that does not exist the call does
    nothing. *)
Theorem C6_update_many (c : string) (query patch : dict) (db : store) :
  (db !! c = None → update_many c query patch db = (Ok (), db)) ∧
  (∀ docs,
     db !! c = Some docs →
     NoDup (map fst patch) →
     (∀ doc, doc ∈ docs → ∃ m, _matches_query (VDict doc) query = Ok m) →
     (update_many c query patch db).1 = Ok () ∧
     (∀ c', c' ≠ c → (update_many c query patch db).2 !! c' = db !! c') ∧
     length (collection (update_many c query patch db).2 c) = length docs ∧
     ∀ i doc,
       docs !! i = Some doc →
       ∃ doc',
         collection (update_many c query patch db).2 c !! i = Some doc' ∧
         (_matches_query (VDict doc) query = Ok true →
          ∀ k, dict_get doc' k =
               match dict_get patch k with
               | Some v => Some v
               | None => dict_get doc k
               end) ∧
         (_matches_query (VDict doc) query = Ok false → doc' = doc)).
Proof.
  split.
  - intros Habsent. unfold update_many. by rewrite Habsent.
  - intros docs Hdocs Hnd Hok.
    unfold update_many. rewrite Hdocs, (update_loop_total _ _ _ Hok).
    simpl. rewrite collection_insert.
    split_and!; try done.
    + intros c' Hne. by rewrite lookup_insert_ne.
    + apply length_map.
    + intros i doc Hi. exists (patched query patch doc).
      split_and!.
      * by rewrite list_lookup_fmap, Hi.
      * intros Hm k. unfold patched, deepcopy. rewrite Hm.
        by apply dict_get_update.
      * intros Hm. unfold patched. by rewrite Hm.
Qed.


(** ** [count] *)

Lemma item_in_items_spec (doc : dict) (k : string) (v : value) :
  item_in_items doc (k, v) = true ↔
  ∃ w, dict_get doc k = Some w ∧ py_eq w v = true.
Proof.
  unfold item_in_items. simpl. destruct (dict_get doc k) as [w|].
  - split; [by eauto|]. by intros (w' & [= <-] & H).
  - split; [done|]. by intros (w' & H & _).
Qed.

(** The test of [count] and [delete] is the flat predicate of the
    specification. *)
Lemma flat_matches_spec (doc query : dict) :
  flat_matches doc query = true ↔ query_pairs_in doc query.
Proof.
  unfold flat_matches, query_pairs_in. rewrite forallb_forall. split.
  - intros H k v Hin. apply item_in_items_spec, H. by apply list_elem_of_In.
  - intros H [k v] Hin. apply item_in_items_spec, H. by apply list_elem_of_In.
Qed.

Lemma counts_filter (docs : list dict) (query : dict) :
  counts (λ doc, query_pairs_in doc query) docs
    (length (List.filter (λ doc, flat_matches doc query) docs)).
Proof.
  induction docs as [|doc docs IH]; simpl; [constructor|].
  destruct (flat_matches doc query) eqn:E; simpl.
  - apply counts_hit; [|done]. by apply flat_matches_spec.
  - apply counts_miss; [|done]. rewrite <- flat_matches_spec. congruence.
Qed.

Lemma counts_functional {A : Type} (P : A → Prop) (l : list A) (n m : nat) :
  counts P l n → counts P l m → n = m.
Proof.
  intros Hn. revert m. induction Hn; intros m Hm; inversion Hm; subst;
    try done; f_equal; auto.
Qed.

(** What [w == {...}] means for a stored value [w]: a mapping with as many
    items, each of them in the other mapping. *)
Lemma py_eq_dict_inv (w : value) (sub : dict) :
  py_eq w (VDict sub) = true →
  ∃ items, w = VDict items ∧ length items = length sub ∧
    ∀ k v, (k, v) ∈ items →
           ∃ v', dict_get sub k = Some v' ∧ py_eq v v' = true.
Proof.
  destruct w as [| | | | |items]; simpl; try done.
  intros H. apply andb_true_iff in H as [Hlen Hall].
  exists items. split_and!; [done|by apply Nat.eqb_eq|].
  clear Hlen. induction items as [|[k0 v0] items IH]; intros k v Hin.
  - by apply elem_of_nil in Hin.
  - apply andb_true_iff in Hall as [Hhd Htl].
    apply elem_of_cons in Hin as [[= -> ->]|Hin]; [|by apply IH].
    destruct (dict_get sub k0) as [v'|]; [by eauto|done].
Qed.

(** C7: [count] returns, without raising and without changing the store,
    the number of records of the collection among whose top-level pairs
    every pair of the query occurs, values compared with [==]; a record
    counted for a query with a nested mapping holds at that key a mapping
    of the same size whose items are those of the query's mapping.  On a
    collection that does not exist the number is 0. *)
Theorem C7_count_flat (c : string) (query : dict) (db : store) :
  ∃ n,
    count c query db = (Ok n, db) ∧
    counts (λ doc, query_pairs_in doc query) (collection db c) n ∧
    (db !! c = None → n = 0%nat) ∧
    (∀ doc k sub,
       (k, VDict sub) ∈ query →
       query_pairs_in doc query →
       ∃ items, dict_get doc k = Some (VDict items) ∧
         length items = length sub ∧
         ∀ k' v, (k', v) ∈ items →
                 ∃ v', dict_get sub k' = Some v' ∧ py_eq v v' = true).
Proof.
  assert (Hnested : ∀ doc k sub,
       (k, VDict sub) ∈ query →
       query_pairs_in doc query →
       ∃ items, dict_get doc k = Some (VDict items) ∧
         length items = length sub ∧
         ∀ k' v, (k', v) ∈ items →
                 ∃ v', dict_get sub k' = Some v' ∧ py_eq v v' = true).
  { intros doc k sub Hq Hall. destruct (Hall _ _ Hq) as (w & Hw & Heq).
    destruct (py_eq_dict_inv _ _ Heq) as (items & -> & Hlen & Hitems).
    by exists items. }
  unfold count, collection. destruct (db !! c) as [docs|] eqn:E; simpl.
  - eexists. split_and!; [done|apply counts_filter|done|done].
  - exists 0%nat. split_and!; [done|constructor|done|done].
Qed.

(** ** Partiality of the recursive predicate *)

Lemma _matches_query_app (doc : value) (pre rest : dict) :
  _matches_query doc pre = Ok true →
  _matches_query doc (pre ++ rest) = _matches_query doc rest.
Proof.
  induction pre as [|[key value] pre IH]; [done|].
  rewrite <- app_comm_cons, !_matches_query_cons.
  destruct (py_contains doc key) as [[]|]; simpl; try done.
  destruct (is_dict value).
  - destruct (py_getitem doc key) as [sub|]; simpl; [|done].
    destruct (matches_value value sub) as [[]|]; simpl; done.
  - destruct (py_getitem doc key) as [cur|]; simpl; [|done].
    destruct (py_eq cur value); simpl; done.
Qed.

(** Under [mapping_shaped] the predicate returns. *)
Lemma matches_value_total (query doc : value) :
  mapping_shaped query doc = true → ∃ m, matches_value query doc = Ok m.
Proof.
  revert doc.
  induction query as [| | | | |items IH] using value_ind; intros doc;
    try done.
  destruct doc as [| | | | |fields]; try done.
  simpl. induction items as [|[key value] items IHitems]; intros Hshape.
  - by eexists.
  - apply Forall_cons in IH as [IHv IH]. simpl in IHv.
    apply andb_true_iff in Hshape as [Hv Hrest].
    destruct (IHitems IH Hrest) as [mrest Hmrest].
    destruct (dict_get fields key) as [w|] eqn:E; simpl; [|by eexists].
    destruct value as [| | | | |sub]; simpl;
      try (destruct (py_eq w _); simpl; by eauto).
    destruct (IHv w Hv) as [m Hm].
    simpl in Hm. rewrite Hm. simpl. destruct m; simpl; by eauto.
Qed.

Lemma _matches_query_raises (doc pre post sub : dict) (key : string)
    (item : string * value) (w : value) :
  _matches_query (VDict doc) pre = Ok true →
  dict_get doc key = Some w →
  opaque_scalar w = true →
  _matches_query (VDict doc) (pre ++ (key, VDict (item :: sub)) :: post)
    = Raise TypeError.
Proof.
  intros Hpre Hw Hscalar. rewrite (_matches_query_app _ _ _ Hpre).
  rewrite _matches_query_cons. simpl. rewrite Hw. simpl.
  destruct item as [k v]. by destruct w.
Qed.

Lemma first_match_raises (before after : list dict) (doc query : dict)
    (e : exn) (n : nat) :
  (∀ d, d ∈ before → _matches_query (VDict d) query = Ok false) →
  _matches_query (VDict doc) query = Raise e →
  first_match (before ++ doc :: after) query n = Raise e.
Proof.
  revert n. induction before as [|d before IH]; intros n Hno He; simpl.
  - by rewrite He.
  - rewrite (Hno d) by left. simpl. apply IH; [|done].
    intros d' Hd'. apply Hno. by right.
Qed.

Lemma find_loop_raises (before after : list dict) (doc query : dict)
    (projection : option dict) (e : exn) :
  (∀ d, d ∈ before → ∃ m, _matches_query (VDict d) query = Ok m) →
  _matches_query (VDict doc) query = Raise e →
  (find_loop (before ++ doc :: after) query projection).2 = Some e.
Proof.
  induction before as [|d before IH]; intros Hok He; simpl.
  - by rewrite He.
  - destruct (Hok d) as [m ->]; [left|].
    assert (Hr := IH (λ d' Hd', Hok d' (list_elem_of_further _ _ _ Hd')) He).
    destruct (find_loop (before ++ doc :: after) query projection) as [ys e'].
    exact Hr.
Qed.

(** Records on which the predicate is false are not patched: the loop of
    [update_many] reaches the raising record with the collection as it
    was. *)
Lemma update_loop_raises_unchanged (before after : list dict)
    (doc query patch : dict) (e : exn) :
  (∀ d, d ∈ before → _matches_query (VDict d) query = Ok false) →
  _matches_query (VDict doc) query = Raise e →
  update_loop (before ++ doc :: after) query patch
    = (before ++ doc :: after, Some e).
Proof.
  induction before as [|d before IH]; intros Hno He; simpl.
  - by rewrite He.
  - rewrite (Hno d) by left.
    rewrite IH by (try done; intros d' Hd'; apply Hno; by right).
    done.
Qed.

(** The same on the heap, where the loop reads each record when it comes
    to it: no record before the raising one is written to. *)
Lemma heap_update_loop_raises (before after : list Heap.loc) (bad : Heap.loc)
    (docs : list dict) (doc query : dict) (patch : Heap.loc) (e : exn)
    (h : Heap.heap) :
  Heap.read_docs h before = Some docs →
  Heap.read_dict h bad = Some doc →
  (∀ d, d ∈ docs → _matches_query (VDict d) query = Ok false) →
  _matches_query (VDict doc) query = Raise e →
  Heap.update_loop (before ++ bad :: after) query patch h = Some (Some e, h).
Proof.
  revert docs. induction before as [|d before IH]; intros docs Hdocs Hbad Hno He.
  - simpl. rewrite Hbad. simpl. by rewrite He.
  - apply mapM_Some, Forall2_cons_inv_l in Hdocs
      as (v & docs' & Hv & Hdocs' & ->).
    apply mapM_Some in Hdocs'. simpl. rewrite Hv. simpl.
    rewrite (Hno v) by left.
    apply (IH docs'); try done. intros d' Hd'. apply Hno. by right.
Qed.

(** C10, as stated, fails: with a mapping in the query where the record
    holds an integer the predicate returns [True] when that mapping is
    empty, and [False] when an earlier key of the query does not match;
    [find_one] then answers instead of failing. *)
Lemma C10_mapping_against_scalar_without_error :
  dict_get Scenario.scalar_a "a" = Some (VInt 5) ∧
  _matches_query (VDict Scenario.scalar_a) Scenario.by_a_empty = Ok true ∧
  (find_one "c" Scenario.by_a_empty Scenario.scalar_only).1
    = Ok (Some Scenario.scalar_a) ∧
  _matches_query (VDict Scenario.scalar_a) Scenario.by_z_then_a = Ok false ∧
  (find_one "c" Scenario.by_z_then_a Scenario.scalar_only).1 = Ok None.
Proof. split_and!; vm_compute; reflexivity. Qed.

(** C10 (amended): the recursive predicate raises [TypeError] when the
    keys of the query before some key all match and at that key the query
    holds a mapping that is not empty while the record holds [None], a
    boolean or an integer.  [find_one], [upsert_one] and [update_many]
    then fail when the predicate is false on every record before such a
    record, [update_many] leaving the store as it was, on values and on
    the heap alike; [find] fails when its iteration reaches the record.
    When the record holds a mapping wherever the query holds one at a key
    of the record, at every depth, the predicate returns. *)
Theorem C10_recursive_predicate_partial (c : string) (query : dict)
    (db : store) :
  (∀ doc pre post sub key item w,
     query = pre ++ (key, VDict (item :: sub)) :: post →
     _matches_query (VDict doc) pre = Ok true →
     dict_get doc key = Some w →
     opaque_scalar w = true →
     _matches_query (VDict doc) query = Raise TypeError) ∧
  (∀ before doc after e,
     db !! c = Some (before ++ doc :: after) →
     _matches_query (VDict doc) query = Raise e →
     ((∀ d, d ∈ before → _matches_query (VDict d) query = Ok false) →
      (find_one c query db).1 = Raise e ∧
      (∀ document, (upsert_one c document query db).1 = Raise e) ∧
      ∀ patch, update_many c query patch db = (Raise e, db)) ∧
     ((∀ d, d ∈ before → ∃ m, _matches_query (VDict d) query = Ok m) →
      ∀ projection, (find c query projection db).2 = Some e)) ∧
  (∀ (st : Heap.state) before bad after docs doc e,
     st.2 !! c = Some (before ++ bad :: after) →
     Heap.read_docs st.1 before = Some docs →
     Heap.read_dict st.1 bad = Some doc →
     (∀ d, d ∈ docs → _matches_query (VDict d) query = Ok false) →
     _matches_query (VDict doc) query = Raise e →
     ∀ patch, Heap.update_many c query patch st = Some (Raise e, st)) ∧
  (∀ doc, mapping_shaped (VDict query) doc = true →
          ∃ m, _matches_query doc query = Ok m).
Proof.
  split_and!.
  - intros doc pre post sub key item w -> Hpre Hw Hscalar.
    by apply (_matches_query_raises doc pre post sub key item w).
  - intros before doc after e Hdocs He. split.
    + intros Hno. split_and!.
      * unfold find_one. rewrite Hdocs. simpl.
        rewrite (find_one_loop_skip _ _ _ Hno). simpl. by rewrite He.
      * intros document. unfold upsert_one.
        rewrite (ensure_collection_present _ _ _ Hdocs).
        unfold collection. rewrite Hdocs. simpl.
        by rewrite (first_match_raises _ _ _ _ _ _ Hno He).
      * intros patch. unfold update_many. rewrite Hdocs.
        rewrite (update_loop_raises_unchanged _ _ _ _ _ _ Hno He).
        by rewrite (insert_id _ _ _ Hdocs).
    + intros Hok projection. unfold find. rewrite Hdocs.
      by apply find_loop_raises.
  - intros [h hdb] before bad after docs doc e Hdocs Hread Hbad Hno He patch.
    simpl in *. unfold Heap.update_many. simpl. rewrite Hdocs.
    by rewrite (heap_update_loop_raises _ _ _ _ _ _ _ _ _ Hread Hbad Hno He).
  - intros doc. apply matches_value_total.
Qed.

(** ** The theorems at concrete inputs *)

Lemma C2_insert_all_or_nothing_witness :
  (insert "users" [Scenario.fresh; Scenario.alice]
     (Scenario.after_insert Scenario.alice)).1 ≠ Ok () ∧
  insert "users" [Scenario.fresh] (Scenario.after_insert Scenario.alice) =
    (Ok (),
     <["users" := collection (Scenario.after_insert Scenario.alice) "users"
                  ++ [Scenario.fresh]]>
       (Scenario.after_insert Scenario.alice)).
Proof.
  split.
  - destruct (proj1 (C2_insert_all_or_nothing "users"
                       [Scenario.fresh; Scenario.alice]
                       (Scenario.after_insert Scenario.alice)))
      as (i & d & _ & _ & _ & H & _).
    + exists Scenario.alice. split; [right; left|].
      apply id_taken_collides. vm_compute. reflexivity.
    + rewrite H. discriminate.
  - apply (proj2 (C2_insert_all_or_nothing "users" [Scenario.fresh]
                    (Scenario.after_insert Scenario.alice))).
    intros d Hd. apply list_elem_of_singleton in Hd as ->.
    apply id_taken_free. vm_compute. reflexivity.
Defined.

Lemma C4_duplicate_key_on_equal_ids_witness :
  (insert_one "c" Scenario.scalar_a Scenario.scalar_only).1
    = Raise (DuplicateKeyError VNone) ∧
  (upsert_one "c" Scenario.fresh Scenario.by_z_then_a Scenario.scalar_only).1
    = Ok ().
Proof.
  pose proof (C4_duplicate_key_on_equal_ids "c" Scenario.scalar_a []
                [] Scenario.scalar_only) as (_ & _ & _ & _ & _ & Hnone).
  pose proof (C4_duplicate_key_on_equal_ids "c" Scenario.fresh
                Scenario.by_z_then_a [] Scenario.scalar_only)
    as (_ & _ & _ & _ & Hupsert & _).
  split.
  - apply Hnone; [reflexivity|].
    exists Scenario.scalar_a. split; [vm_compute; left|reflexivity].
  - apply Hupsert; [vm_compute; reflexivity|].
    apply id_taken_free. vm_compute. reflexivity.
Defined.

Lemma C5_upsert_one_witness :
  collection
    (upsert_one "users" Scenario.alice_zip Scenario.by_city
       (Scenario.after_insert Scenario.alice)).2 "users" !! 0%nat
    = Some Scenario.alice_zip ∧
  length (collection
            (upsert_one "users" Scenario.fresh Scenario.by_a_b
               (Scenario.after_insert Scenario.alice)).2 "users")
    = S (length (collection (Scenario.after_insert Scenario.alice) "users")).
Proof.
  split.
  - apply (proj1 (C5_upsert_one "users" Scenario.alice_zip Scenario.by_city
                    (Scenario.after_insert Scenario.alice))
             0%nat Scenario.alice).
    + vm_compute. reflexivity.
    + vm_compute. reflexivity.
    + intros j other Hj. lia.
  - apply (proj2 (C5_upsert_one "users" Scenario.fresh Scenario.by_a_b
                    (Scenario.after_insert Scenario.alice))).
    + intros doc Hdoc. vm_compute in Hdoc.
      apply list_elem_of_singleton in Hdoc as ->. vm_compute. reflexivity.
    + apply id_taken_free. vm_compute. reflexivity.
Defined.

Lemma C6_update_many_witness :
  (update_many "users" [("name", VStr "Alice")] [("name", VStr "Alicia")]
     (Scenario.after_insert Scenario.alice)).1 = Ok () ∧
  update_many "nobody" [] [("name", VStr "Alicia")]
    (Scenario.after_insert Scenario.alice)
    = (Ok (), Scenario.after_insert Scenario.alice).
Proof.
  split.
  - apply (proj2 (C6_update_many "users" [("name", VStr "Alice")]
                    [("name", VStr "Alicia")]
                    (Scenario.after_insert Scenario.alice))
             [Scenario.alice]).
    + vm_compute. reflexivity.
    + apply nodup_keys_NoDup. reflexivity.
    + intros doc Hdoc. apply list_elem_of_singleton in Hdoc as ->.
      exists true. vm_compute. reflexivity.
  - apply (proj1 (C6_update_many "nobody" [] [("name", VStr "Alicia")]
                    (Scenario.after_insert Scenario.alice))).
    vm_compute. reflexivity.
Defined.

Lemma C7_count_flat_witness :
  (count "nobody" Scenario.by_city (Scenario.after_insert Scenario.alice)).1
    = Ok 0%nat ∧
  ∃ items, dict_get Scenario.alice "address" = Some (VDict items) ∧
           length items = 1%nat.
Proof.
  destruct (C7_count_flat "nobody" Scenario.by_city
              (Scenario.after_insert Scenario.alice))
    as (n & Hcount & _ & Hzero & Hnested).
  split.
  - rewrite Hcount. simpl. f_equal. apply Hzero. vm_compute. reflexivity.
  - destruct (Hnested Scenario.alice "address" [("city", VStr "NYC")])
      as (items & Hget & Hlen & _).
    + left.
    + apply flat_matches_spec. vm_compute. reflexivity.
    + exists items. split; [exact Hget|exact Hlen].
Defined.

Lemma C8_intra_batch_duplicates_witness :
  collection (insert "users" [Scenario.fresh; Scenario.fresh]
                (Scenario.after_insert Scenario.alice)).2 "users"
    = [Scenario.alice; Scenario.fresh; Scenario.fresh].
Proof.
  destruct (C8_intra_batch_duplicates "users" [Scenario.fresh; Scenario.fresh]
              (Scenario.after_insert Scenario.alice) 0 1
              Scenario.fresh Scenario.fresh) as (_ & Hall & _).
  - lia.
  - reflexivity.
  - reflexivity.
  - vm_compute. reflexivity.
  - intros d Hd. apply id_taken_free.
    apply elem_of_cons in Hd as [->|Hd];
      [|apply list_elem_of_singleton in Hd as ->]; vm_compute; reflexivity.
  - rewrite Hall. vm_compute. reflexivity.
Defined.

Lemma C10_recursive_predicate_partial_witness :
  _matches_query (VDict Scenario.scalar_a) Scenario.by_a_b = Raise TypeError ∧
  (find_one "c" Scenario.by_a_b Scenario.scalar_first).1 = Raise TypeError ∧
  (update_many "c" Scenario.by_a_b [] Scenario.scalar_first).1
    = Raise TypeError ∧
  (find "c" Scenario.by_a_b None Scenario.scalar_first).2 = Some TypeError ∧
  Heap.update_many "c" Scenario.by_a_b 0 Heap.scalar_store
    = Some (Raise TypeError, Heap.scalar_store) ∧
  ∃ m, _matches_query (VDict Scenario.nested_a) Scenario.by_a_b = Ok m.
Proof.
  destruct (C10_recursive_predicate_partial "c" Scenario.by_a_b
              Scenario.scalar_first) as (Hraise & Hops & Hheap & Htotal).
  assert (Hr : _matches_query (VDict Scenario.scalar_a) Scenario.by_a_b
               = Raise TypeError).
  { apply (Hraise Scenario.scalar_a [] [] [] "a" ("b", VInt 1) (VInt 5));
      reflexivity. }
  destruct (Hops [] Scenario.scalar_a [Scenario.nested_a] TypeError)
    as (Hscan & Hfind).
  - vm_compute. reflexivity.
  - exact Hr.
  - destruct Hscan as (Hone & _ & Hmany).
    { intros d Hd. by apply elem_of_nil in Hd. }
    split_and!.
    + exact Hr.
    + exact Hone.
    + by rewrite (Hmany []).
    + apply Hfind. intros d Hd. by apply elem_of_nil in Hd.
    + apply (Hheap Heap.scalar_store [] 0%nat [] [] Scenario.scalar_a TypeError).
      * vm_compute. reflexivity.
      * reflexivity.
      * vm_compute. reflexivity.
      * intros d Hd. by apply elem_of_nil in Hd.
      * exact Hr.
    + apply Htotal. reflexivity.
Defined.

(** * Further properties of the store *)

(** ** The two predicates on queries without mappings *)



(** ** [find] and [find_one] *)










(** ** [delete] *)

(** [delete] with the empty query removes every record of the collection,
    which stays in the store, empty; [count] then returns 0 for every
    query. *)
Theorem delete_empty_query (c : string) (docs : list dict) (db : store) :
  db !! c = Some docs →
  delete c [] db = (Ok (), <[c := []]> db) ∧
  ∀ query, (count c query (delete c [] db).2).1 = Ok 0%nat.
Proof.
  intros Hdocs. unfold delete. rewrite Hdocs.
  assert (Hall : List.filter (λ doc : dict, negb (flat_matches doc [])) docs
                 = []).
  { clear Hdocs. by induction docs. }
  rewrite Hall. split; [done|]. intros query. unfold count. simpl.
  by rewrite lookup_insert_eq.
Qed.

Lemma delete_empty_query_witness :
  delete "users" [] (Scenario.after_insert Scenario.alice)
  = (Ok (), <["users" := []]> (Scenario.after_insert Scenario.alice)).
Proof.
  apply (delete_empty_query "users" [Scenario.alice]
           (Scenario.after_insert Scenario.alice)).
  vm_compute. reflexivity.
Defined.

Lemma filter_length_split {A : Type} (f : A → bool) (l : list A) :
  (length (List.filter f l) + length (List.filter (λ x, negb (f x)) l))%nat
  = length l.
Proof.
  induction l as [|x l IH]; [done|]. simpl.
  destruct (f x); simpl; lia.
Qed.

Lemma filter_filter_negb {A : Type} (f : A → bool) (l : list A) :
  List.filter f (List.filter (λ x, negb (f x)) l) = [].
Proof.
  induction l as [|x l IH]; [done|]. simpl.
  destruct (f x) eqn:E; simpl; [done|]. by rewrite E.
Qed.

Lemma filter_idemp {A : Type} (f : A → bool) (l : list A) :
  List.filter f (List.filter f l) = List.filter f l.
Proof.
  induction l as [|x l IH]; [done|]. simpl.
  destruct (f x) eqn:E; simpl; [|done]. by rewrite E, IH.
Qed.

(** [delete] removes as many records as [count] counts for the same query,
    and afterwards [count] returns 0 for it; deleting again changes
    nothing. *)
Theorem delete_removes_what_count_counts (c : string) (query : dict)
    (db : store) (n : nat) :
  (count c query db).1 = Ok n →
  (delete c query db).1 = Ok () ∧
  (length (collection (delete c query db).2 c) + n)%nat
    = length (collection db c) ∧
  (count c query (delete c query db).2).1 = Ok 0%nat ∧
  delete c query (delete c query db).2 = delete c query db.
Proof.
  unfold count, delete, collection.
  destruct (db !! c) as [docs|] eqn:Hdocs; simpl.
  - intros [= <-]. rewrite !lookup_insert_eq. simpl.
    split_and!; [done| | |].
    + rewrite Nat.add_comm. apply filter_length_split.
    + by rewrite filter_filter_negb.
    + by rewrite filter_idemp, insert_insert_eq.
  - intros [= <-]. simpl. rewrite ?Hdocs. simpl. by rewrite ?Hdocs.
Qed.

Lemma delete_removes_what_count_counts_witness :
  (length (collection (delete "users" Scenario.by_city
                         (Scenario.after_insert Scenario.alice)).2 "users")
   + 1)%nat
  = length (collection (Scenario.after_insert Scenario.alice) "users").
Proof.
  apply (delete_removes_what_count_counts "users" Scenario.by_city
           (Scenario.after_insert Scenario.alice) 1).
  vm_compute. reflexivity.
Defined.

(** [delete] keeps, in their order, exactly the records among whose pairs
    some pair of the query does not occur; the other collections are as
    before, and a collection that does not exist is not created. *)
Theorem delete_keeps_the_rest (c : string) (query : dict) (db : store) :
  collection (delete c query db).2 c `sublist_of` collection db c ∧
  (∀ doc, doc ∈ collection (delete c query db).2 c ↔
          doc ∈ collection db c ∧ ¬ query_pairs_in doc query) ∧
  (∀ c', c' ≠ c → (delete c query db).2 !! c' = db !! c') ∧
  (db !! c = None → delete c query db = (Ok (), db)).
Proof.
  unfold delete, collection.
  destruct (db !! c) as [docs|] eqn:Hdocs; simpl.
  - rewrite lookup_insert_eq. simpl. split_and!.
    + clear Hdocs. induction docs as [|d docs IH]; [done|]. simpl.
      destruct (negb (flat_matches d query)); by constructor.
    + intros doc. rewrite list_elem_of_In, filter_In, <- list_elem_of_In.
      rewrite negb_true_iff, <- flat_matches_spec.
      destruct (flat_matches doc query); intuition congruence.
    + intros c' Hne. by rewrite lookup_insert_ne.
    + done.
  - rewrite Hdocs. simpl. split_and!; try done.
    intros doc. split; [|by intros []]. intros H. by apply elem_of_nil in H.
Qed.

Lemma delete_keeps_the_rest_witness :
  delete "nobody" Scenario.by_city (Scenario.after_insert Scenario.alice)
  = (Ok (), Scenario.after_insert Scenario.alice).
Proof.
  apply (delete_keeps_the_rest "nobody" Scenario.by_city
           (Scenario.after_insert Scenario.alice)).
  vm_compute. reflexivity.
Defined.

(** ** [count] and the insertions *)

(** [count] with the empty query is the number of records of the
    collection; a batch that [insert] accepts raises it by the length of
    the batch. *)
Theorem count_empty_query_is_size (c : string) (documents : list dict)
    (db : store) :
  (count c [] db).1 = Ok (length (collection db c)) ∧
  ((insert c documents db).1 = Ok () →
   (count c [] (insert c documents db).2).1
     = Ok (length (collection db c) + length documents)%nat).
Proof.
  assert (Hall : ∀ docs : list dict,
            List.filter (λ doc : dict, flat_matches doc []) docs = docs).
  { intros docs. induction docs as [|d docs IH]; [done|].
    change (d :: List.filter (λ doc : dict, flat_matches doc []) docs
            = d :: docs). by rewrite IH. }
  split.
  - unfold count, collection. destruct (db !! c); simpl; [|done].
    by rewrite Hall.
  - destruct (first_duplicate (collection db c) documents) as [id|] eqn:E.
    + by rewrite (insert_raises _ _ _ _ E).
    + rewrite (insert_appends _ _ _ E). simpl. intros _.
      unfold count. rewrite lookup_insert_eq. simpl.
      by rewrite Hall, length_app.
Qed.

Lemma count_empty_query_is_size_witness :
  (count "users" []
     (insert "users" [Scenario.fresh; Scenario.fresh]
        (Scenario.after_insert Scenario.alice)).2).1
  = Ok 3%nat.
Proof.
  apply (proj2 (count_empty_query_is_size "users"
                  [Scenario.fresh; Scenario.fresh]
                  (Scenario.after_insert Scenario.alice))).
  vm_compute. reflexivity.
Defined.

(** A collection that does not exist is created by the first write:
    [insert_one] and [upsert_one] then succeed whatever the record and the
    query, and [insert] whatever the batch, the empty batch leaving an
    empty collection behind. *)
Theorem first_write_creates_the_collection (c : string)
    (document query : dict) (documents : list dict) (db : store) :
  db !! c = None →
  insert_one c document db = (Ok (), <[c := [document]]> db) ∧
  upsert_one c document query db = (Ok (), <[c := [document]]> db) ∧
  insert c documents db = (Ok (), <[c := documents]> db).
Proof.
  intros Habsent.
  assert (Hempty : collection db c = []) by (unfold collection; by rewrite Habsent).
  assert (Hone : insert_one c document db = (Ok (), <[c := [document]]> db)).
  { rewrite insert_one_appends by by rewrite Hempty. by rewrite Hempty. }
  split_and!; [done| |].
  - rewrite upsert_one_no_match by by rewrite Hempty. done.
  - rewrite insert_appends.
    + by rewrite Hempty.
    + rewrite Hempty. clear. by induction documents.
Qed.

Lemma first_write_creates_the_collection_witness :
  insert "users" [] ∅ = (Ok (), <["users" := []]> ∅).
Proof.
  apply (first_write_creates_the_collection "users" [] [] [] ∅).
  reflexivity.
Defined.

(** ** [update_many] when the predicate raises *)

Lemma update_loop_app_raise (before after : list dict)
    (bad query patch : dict) (e : exn) :
  (∀ doc, doc ∈ before → ∃ m, _matches_query (VDict doc) query = Ok m) →
  _matches_query (VDict bad) query = Raise e →
  update_loop (before ++ bad :: after) query patch
    = (map (patched query patch) before ++ bad :: after, Some e).
Proof.
  induction before as [|doc before IH]; intros Hok He; simpl.
  - by rewrite He.
  - destruct (Hok doc) as [m Hm]; [left|].
    rewrite IH by (try done; intros d Hd; apply Hok; by right).
    unfold patched at 2, deepcopy. rewrite Hm. by destruct m.
Qed.

Lemma update_loop_pointwise (docs : list dict) (query patch : dict) :
  Forall2 (λ doc doc', doc' = doc ∨ doc' = dict_update doc patch)
    docs (update_loop docs query patch).1.
Proof.
  induction docs as [|doc docs IH]; simpl; [constructor|].
  destruct (_matches_query (VDict doc) query) as [m|e]; simpl.
  - destruct (update_loop docs query patch) as [rest e]. simpl in *.
    constructor; [|done]. destruct m; [by right|by left].
  - constructor; [by left|]. clear. induction docs; constructor; auto.
Qed.

(** ** The identity invariant *)

Lemma distinct_ids_snoc (docs : list dict) (document : dict) :
  distinct_ids docs → id_taken docs document = false →
  distinct_ids (docs ++ [document]).
Proof.
  intros Hdocs Hfree i j d1 d2 Hij Hi Hj.
  destruct (decide (j < length docs)%nat) as [Hlt|Hge].
  - rewrite lookup_app_l in Hi by lia. rewrite lookup_app_l in Hj by lia.
    exact (Hdocs i j d1 d2 Hij Hi Hj).
  - assert (j = length docs) as ->.
    { apply lookup_lt_Some in Hj. rewrite length_app in Hj. simpl in Hj. lia. }
    rewrite lookup_app_l in Hi by lia.
    rewrite list_lookup_middle in Hj by done. injection Hj as <-.
    apply not_true_is_false. intros Heq.
    apply id_taken_free in Hfree. apply Hfree. exists d1.
    split; [by eapply list_elem_of_lookup_2|done].
Qed.

(** [insert_one] keeps the ids of a collection distinct, whether it
    succeeds or raises, and so does [upsert_one] when no record matches
    its query. *)
Theorem insert_one_keeps_ids_distinct (c : string) (document query : dict)
    (db : store) :
  distinct_ids (collection db c) →
  distinct_ids (collection (insert_one c document db).2 c) ∧
  (first_match (collection db c) query 0 = Ok None →
   distinct_ids (collection (upsert_one c document query db).2 c)).
Proof.
  intros Hdocs.
  assert (Hone : distinct_ids (collection (insert_one c document db).2 c)).
  { destruct (id_taken (collection db c) document) eqn:E.
    - rewrite (insert_one_raises _ _ _ E). simpl. by rewrite collection_ensure.
    - rewrite (insert_one_appends _ _ _ E). simpl. rewrite collection_insert.
      by apply distinct_ids_snoc. }
  split; [done|]. intros Hnone. by rewrite (upsert_one_no_match _ _ _ _ Hnone).
Qed.

Lemma insert_one_keeps_ids_distinct_witness :
  distinct_ids (collection (insert_one "users" Scenario.fresh
                              (Scenario.after_insert Scenario.alice)).2 "users").
Proof.
  apply (insert_one_keeps_ids_distinct "users" Scenario.fresh []
           (Scenario.after_insert Scenario.alice)).
  intros i j d1 d2 Hij Hi Hj. vm_compute in Hi, Hj.
  destruct j as [|j]; [lia|]. by destruct j.
Defined.

(** The replacement of [upsert_one] does not look at ids: when the record
    it replaces is not the one that has the [_id] of the new record, the
    collection ends up with two records of that [_id]. *)
Theorem upsert_one_replacement_ignores_ids (c : string)
    (document query : dict) (db : store) (i j : nat) (doc other : dict) :
  collection db c !! i = Some doc →
  _matches_query (VDict doc) query = Ok true →
  (∀ k before, (k < i)%nat → collection db c !! k = Some before →
               _matches_query (VDict before) query = Ok false) →
  (j < i)%nat →
  collection db c !! j = Some other →
  py_eq (doc_id other) (doc_id document) = true →
  (upsert_one c document query db).1 = Ok () ∧
  collection (upsert_one c document query db).2 c !! i = Some document ∧
  collection (upsert_one c document query db).2 c !! j = Some other ∧
  ¬ distinct_ids (collection (upsert_one c document query db).2 c).
Proof.
  intros Hi Hm Hbefore Hji Hj Hid.
  pose proof (first_match_found _ _ _ 0 _ Hi Hm Hbefore) as Hfound.
  unfold upsert_one. rewrite collection_ensure, Hfound. simpl.
  rewrite collection_insert. unfold deepcopy.
  assert (H1 : <[i := document]> (collection db c) !! i = Some document).
  { apply list_lookup_insert_eq. by eapply lookup_lt_Some. }
  assert (H2 : <[i := document]> (collection db c) !! j = Some other).
  { rewrite list_lookup_insert_ne by lia. done. }
  split_and!; try done.
  intros Hdistinct. by rewrite (Hdistinct j i other document Hji H2 H1) in Hid.
Qed.

Lemma upsert_one_replacement_ignores_ids_witness :
  collection
    (upsert_one "c" Scenario.wide_id [("name", VStr "Alice")]
       {["c" := [Scenario.wide_id; Scenario.alice]]}).2 "c"
  !! 1%nat = Some Scenario.wide_id.
Proof.
  apply (upsert_one_replacement_ignores_ids "c" Scenario.wide_id
           [("name", VStr "Alice")]
           {["c" := [Scenario.wide_id; Scenario.alice]]} 1 0
           Scenario.alice Scenario.wide_id).
  - vm_compute. reflexivity.
  - vm_compute. reflexivity.
  - intros k before Hk Hlk. assert (k = 0)%nat as -> by lia.
    vm_compute in Hlk. injection Hlk as <-. vm_compute. reflexivity.
  - lia.
  - vm_compute. reflexivity.
  - vm_compute. reflexivity.
Defined.

(** ** Projection *)

Lemma dict_get_filter_keys (f : string → bool) (d : dict) (k : string) :
  dict_get (List.filter (λ kv, f kv.1) d) k
    = if f k then dict_get d k else None.
Proof.
  induction d as [|[k0 v0] d IH]; simpl; [by destruct (f k)|].
  destruct (String.eqb k0 k) eqn:E.
  - apply String.eqb_eq in E. subst k0. destruct (f k) eqn:Ef; simpl.
    + by rewrite String.eqb_refl.
    + exact IH.
  - destruct (f k0); simpl; [by rewrite E|done].
Qed.

Lemma py_eq_one (flag : value) :
  py_eq flag (VInt 1) = true ↔ flag = VInt 1 ∨ flag = VBool true.
Proof.
  destruct flag as [| [] | z | | |]; simpl; split; try done;
    try (by intros [|]); try (intros _; by right).
  - intros Hz. apply Z.eqb_eq in Hz as ->. by left.
  - intros [[= ->]|]; done.
Qed.

(** The projection of a record has the fields of the record whose flag in
    the projection is 1 or [True], with their values and in the order of
    the record; projecting again changes nothing. *)
Theorem apply_projection_fields (doc projection : dict) :
  (∀ k, dict_get (_apply_projection doc projection) k
        = if projected projection k then dict_get doc k else None) ∧
  (∀ k, projected projection k = true ↔
        dict_get projection k = Some (VInt 1) ∨
        dict_get projection k = Some (VBool true)) ∧
  map fst (_apply_projection doc projection) `sublist_of` map fst doc ∧
  _apply_projection (_apply_projection doc projection) projection
    = _apply_projection doc projection.
Proof.
  unfold _apply_projection. split_and!.
  - intros k. apply (dict_get_filter_keys (projected projection)).
  - intros k. unfold projected.
    destruct (dict_get projection k) as [flag|]; [|naive_solver].
    rewrite py_eq_one. naive_solver.
  - induction doc as [|[k v] doc IH]; [done|]. simpl.
    destruct (projected projection k); simpl; by constructor.
  - apply filter_idemp.
Qed.

(** * The url of the Chroma vector store *)

Lemma string_prefix_append (p s : string) :
  String.prefix p s = true ↔ ∃ r, s = p +:+ r.
Proof.
  revert s. induction p as [|a p IH]; intros s.
  - split; [by exists s|]. intros _. by destruct s.
  - destruct s as [|b s]; simpl; [split; [done|by intros [r ?]]|].
    destruct (Ascii.ascii_dec a b) as [->|Hne].
    + rewrite IH. split; intros [r Hr]; exists r; [by rewrite Hr|].
      by injection Hr.
    + split; [done|]. intros [r Hr]. injection Hr as Hab _. congruence.
Qed.

Lemma string_substring_all (s : string) :
  String.substring 0 (String.length s) s = s.
Proof. induction s as [|a s IH]; simpl; [done|]. by rewrite IH. Qed.

Lemma path_of_file_url (path : string) :
  Chroma.path_of ("file://" +:+ path) = path.
Proof.
  unfold Chroma.path_of. simpl. rewrite Nat.sub_0_r.
  apply string_substring_all.
Qed.

Section validate_url_facts.
Variable replace_env_var_in_string : string → string.
Variable resolve : string → string.
Variable is_absolute : string → bool.

Abbreviation validate_url :=
  (Chroma.validate_url replace_env_var_in_string resolve is_absolute).

(** The validator accepts the urls that start with [http://] or
    [https://], whatever follows, and the urls [file://] followed by a
    path that is not empty and is absolute once its environment variables
    are replaced; it accepts no other url. *)
Theorem validate_url_accepts (url : string) :
  validate_url url = Chroma.Returns ↔
  (∃ path, url = "file://" +:+ path ∧ path ≠ "" ∧
           is_absolute (replace_env_var_in_string path) = true) ∨
  String.prefix "http://" url = true ∨
  String.prefix "https://" url = true.
Proof.
  unfold Chroma.validate_url.
  destruct (String.prefix "file://" url) eqn:Hfile.
  - apply string_prefix_append in Hfile as [path ->].
    rewrite path_of_file_url.
    destruct path as [|a path].
    + simpl. split; [done|]. intros [(p & Hp & Hne & _)|[|]]; try done.
      destruct p as [|b p]; [done|]. injection Hp as Heq.
      change ("" = String b p) in Heq. done.
    + change (String.length ("file://" +:+ String a path)
              <? 8)%nat with false.
      change (String.length (String a path) =? 0)%nat with false. simpl.
      destruct (is_absolute (replace_env_var_in_string (String a path)))
        eqn:Habs; simpl.
      * split; [|done]. intros _. left. by exists (String a path).
      * split; [done|]. intros [(p & Hp & _ & Hp')|[|]]; try done.
        injection Hp as Heq. change (String a path = p) in Heq.
        subst p. congruence.
  - destruct (String.prefix "http://" url) eqn:Hhttp; simpl;
      [split; [by right; left|done]|].
    destruct (String.prefix "https://" url) eqn:Hhttps; simpl;
      [split; [by right; right|done]|].
    split; [done|]. intros [(p & Hp & _)|[|]]; try done.
    rewrite (proj2 (string_prefix_append "file://" url)) in Hfile; [done|].
    by exists p.
Qed.

(** The only url that is refused for a missing path is [file://] itself:
    behind the test on the length of the url, the test on the length of
    the path never fires.  A url is refused for its scheme exactly when it
    starts with none of [file://], [http://] and [https://]. *)
Theorem validate_url_refuses (url : string) :
  (validate_url url = Chroma.ValueError Chroma.missing_path ↔ url = "file://") ∧
  (String.prefix "file://" url = true → (String.length url <? 8)%nat = false →
   (String.length (Chroma.path_of url) =? 0)%nat = false) ∧
  (validate_url url = Chroma.ValueError Chroma.bad_scheme ↔
   String.prefix "file://" url = false ∧
   String.prefix "http://" url = false ∧
   String.prefix "https://" url = false).
Proof.
  unfold Chroma.validate_url.
  destruct (String.prefix "file://" url) eqn:Hfile.
  - apply string_prefix_append in Hfile as [path ->].
    rewrite path_of_file_url.
    destruct path as [|a path].
    + simpl. split_and!; try done. split; [done|]. by intros [? _].
    + change (String.length ("file://" +:+ String a path)
              <? 8)%nat with false.
      change (String.length (String a path) =? 0)%nat with false. simpl.
      split_and!; [|done|].
      * destruct (negb _); split; done.
      * destruct (negb _); split; try done; by intros [? _].
  - split_and!; [|done|].
    + destruct (negb _); (split; [done|]); intros ->; done.
    + destruct (String.prefix "http://" url),
        (String.prefix "https://" url); simpl; split; try done;
        by intros (_ & ? & ?).
Qed.
End validate_url_facts.

Lemma validate_url_accepts_witness :
  Chroma.validate_url (λ s, s) (λ s, s) (String.prefix "/") "file:///data"
    = Chroma.Returns ∧
  Chroma.validate_url (λ s, s) (λ s, s) (String.prefix "/") "http://"
    = Chroma.Returns.
Proof.
  split.
  - apply (validate_url_accepts (λ s, s) (λ s, s) (String.prefix "/")).
    left. exists "/data". split_and!; [reflexivity|discriminate|reflexivity].
  - apply (validate_url_accepts (λ s, s) (λ s, s) (String.prefix "/")).
    right. left. reflexivity.
Defined.

Lemma validate_url_refuses_witness :
  Chroma.validate_url (λ s, s) (λ s, s) (String.prefix "/") "file://"
    = Chroma.ValueError Chroma.missing_path ∧
  Chroma.validate_url (λ s, s) (λ s, s) (String.prefix "/") "ftp://host"
    = Chroma.ValueError Chroma.bad_scheme ∧
  (String.length (Chroma.path_of "file://x") =? 0)%nat = false.
Proof.
  destruct (validate_url_refuses (λ s, s) (λ s, s) (String.prefix "/")
              "file://") as (Hmissing & _ & _).
  destruct (validate_url_refuses (λ s, s) (λ s, s) (String.prefix "/")
              "ftp://host") as (_ & _ & Hscheme).
  destruct (validate_url_refuses (λ s, s) (λ s, s) (String.prefix "/")
              "file://x") as (_ & Hdead & _).
  split_and!.
  - apply Hmissing. reflexivity.
  - apply Hscheme. split_and!; reflexivity.
  - apply Hdead; reflexivity.
Defined.

Lemma apply_projection_fields_witness :
  projected [("name", VBool true); ("_id", VInt 0)] "name" = true.
Proof.
  apply (apply_projection_fields Scenario.alice
           [("name", VBool true); ("_id", VInt 0)]).
  right. reflexivity.
Defined.

(** * Isolation: the store on the heap *)

Module Isolation.
Import Heap.
Local Open Scope nat_scope.

Lemma image_mono (m m' : memo) (r r' : ref) :
  m ⊆ m' → image m r = Some r' → image m' r = Some r'.
Proof.
  intros Hsub. destruct r as [| | | |l]; simpl; try done.
  destruct (m !! l) as [l'|] eqn:E; [|done].
  intros [= <-]. by rewrite (lookup_weaken _ _ _ _ E Hsub).
Qed.

Lemma unseen_empty (h0 : heap) : unseen h0 ∅ = length h0.
Proof.
  unfold unseen. rewrite dom_empty_L, difference_empty_L.
  apply size_set_seq.
Qed.

Lemma unseen_mono (h0 : heap) (m m' : memo) :
  m ⊆ m' → unseen h0 m' ≤ unseen h0 m.
Proof.
  intros Hsub. apply subseteq_size.
  apply subseteq_dom in Hsub. set_solver.
Qed.

Lemma unseen_insert (h0 : heap) (m : memo) (l l' : loc) :
  m !! l = None → l < length h0 → unseen h0 (<[l := l']> m) < unseen h0 m.
Proof.
  intros Hnone Hlt. apply subset_size. rewrite dom_insert_L.
  apply not_elem_of_dom in Hnone.
  assert (l ∈ (set_seq 0 (length h0) : gset nat))
    by (apply elem_of_set_seq; lia).
  set_solver.
Qed.

Lemma prefix_insert_ge (h0 h : heap) (l : loc) (o : obj) :
  h0 `prefix_of` h → length h0 ≤ l → h0 `prefix_of` <[l := o]> h.
Proof.
  intros [ext ->] Hl. exists (<[l - length h0 := o]> ext).
  by rewrite insert_app_r_alt.
Qed.

Lemma copying_start (h : heap) : copying h (λ _, False) h ∅.
Proof.
  split.
  - done.
  - intros l l' H. by rewrite lookup_empty in H.
  - intros l1 l2 l' H. by rewrite lookup_empty in H.
  - intros l' H. lia.
  - intros l l' H. by rewrite lookup_empty in H.
Qed.

Section deepcopy_memo.
Context (h0 : heap) (Hclosed : closed h0).

(** The members are copied once the objects are. *)
Lemma copy_all_spec (n : nat) :
  (∀ r pending h m,
     copying h0 pending h m → ref_in h0 r → unseen h0 m < n →
     ∃ r' h' m', deepcopy_memo n r (h, m) = Some (r', (h', m')) ∧
       copying h0 pending h' m' ∧ m ⊆ m' ∧ image m' r = Some r') →
  ∀ rs pending h m,
    copying h0 pending h m → Forall (ref_in h0) rs → unseen h0 m < n →
    ∃ rs' h' m', copy_all (deepcopy_memo n) rs (h, m) = Some (rs', (h', m')) ∧
      copying h0 pending h' m' ∧ m ⊆ m' ∧
      Forall2 (λ r r', image m' r = Some r') rs rs'.
Proof.
  intros Hcopy rs. induction rs as [|r rs IH]; intros pending h m Hinv Hin Hn.
  - exists [], h, m. split_and!; [done|done|done|constructor].
  - apply Forall_cons in Hin as [Hr Hrs].
    destruct (Hcopy r pending h m Hinv Hr Hn)
      as (r' & h1 & m1 & Hr' & Hinv1 & Hsub1 & Himg1).
    destruct (IH pending h1 m1 Hinv1 Hrs) as (rs' & h2 & m2 & Hrs' & Hinv2 & Hsub2 & Himg2).
    { pose proof (unseen_mono h0 _ _ Hsub1). lia. }
    exists (r' :: rs'), h2, m2. simpl. rewrite Hr'. simpl. rewrite Hrs'. simpl.
    split_and!; [done|done|by etrans|].
    constructor; [|done]. by eapply image_mono.
Qed.

Lemma deepcopy_memo_spec (n : nat) (r : ref) (pending : loc → Prop)
    (h : heap) (m : memo) :
  copying h0 pending h m → ref_in h0 r → unseen h0 m < n →
  ∃ r' h' m', deepcopy_memo n r (h, m) = Some (r', (h', m')) ∧
    copying h0 pending h' m' ∧ m ⊆ m' ∧ image m' r = Some r'.
Proof.
  revert r pending h m. induction n as [|n IH]; intros r pending h m Hinv Hr Hn.
  { lia. }
  destruct r as [| | | |l]; try (by eexists _, h, m).
  simpl. destruct (m !! l) as [l'|] eqn:Hm.
  { exists (RObj l'), h, m. split_and!; try done. simpl. by rewrite Hm. }
  simpl in Hr.
  destruct (h0 !! l) as [o|] eqn:Ho; [|by apply lookup_ge_None in Ho; lia].
  pose proof (copying_prefix _ _ _ _ Hinv) as Hpre.
  pose proof (prefix_lookup_Some _ _ _ _ Ho Hpre) as Hh.
  set (l' := length h).
  assert (Hl' : length h0 ≤ l') by by apply prefix_length.
  assert (Hinv1 : copying h0 (λ x, pending x ∨ x = l)
                    (h ++ [with_refs o []]) (<[l := l']> m)).
  { destruct Hinv as [_ Hb Hi Honto Hd]. split.
    - by apply prefix_app_r.
    - intros x x' Hx. rewrite length_app. simpl.
      apply lookup_insert_Some in Hx as [[<- <-]|[Hne Hx]]; [lia|].
      specialize (Hb _ _ Hx). lia.
    - intros x1 x2 x' Hx1 Hx2.
      apply lookup_insert_Some in Hx1 as [[<- <-]|[Hne1 Hx1]];
        apply lookup_insert_Some in Hx2 as [[<- Heq]|[Hne2 Hx2]]; try done.
      + specialize (Hb _ _ Hx2). unfold l' in *. lia.
      + specialize (Hb _ _ Hx1). unfold l' in *. lia.
      + by eapply Hi.
    - intros x'. rewrite length_app. simpl. intros Hx'.
      destruct (decide (x' = l')) as [->|Hne].
      + exists l. apply lookup_insert_eq.
      + destruct (Honto x') as [x Hx]; [unfold l' in *; lia|].
        exists x. rewrite lookup_insert_ne; [done|].
        intros Heq. rewrite <- Heq, Hm in Hx. done.
    - intros x x' Hx Hnp.
      apply lookup_insert_Some in Hx as [[<- <-]|[Hne Hx]]; [by destruct Hnp; right|].
      destruct (Hd x x' Hx) as (o' & rs & Ho' & Hcopy & Himg); [by intros ?; apply Hnp; left|].
      exists o', rs. split_and!; [done| |].
      + rewrite lookup_app_l; [done|]. by eapply lookup_lt_Some.
      + eapply Forall2_impl; [done|]. intros r r' Hrr'.
        apply (image_mono m); [by apply insert_subseteq|exact Hrr']. }
  destruct (copy_all_spec n IH (refs_of o) _ _ _ Hinv1)
    as (rs & h2 & m2 & Hrs & Hinv2 & Hsub2 & Himg2).
  { by apply (Hclosed l). }
  { pose proof (unseen_insert h0 m l l' Hm Hr). lia. }
  assert (Hl2 : m2 !! l = Some l').
  { eapply lookup_weaken; [|done]. apply lookup_insert_eq. }
  exists (RObj l'), (<[l' := with_refs o rs]> h2), m2.
  split_and!; [by rewrite Hh; simpl; rewrite Hrs| | |by rewrite Hl2].
  - destruct Hinv2 as [Hp Hb Hi Honto Hd]. split.
    + by apply prefix_insert_ge.
    + intros x x' Hx. rewrite length_insert. by apply Hb.
    + done.
    + intros x'. rewrite length_insert. apply Honto.
    + intros x x' Hx Hnp. destruct (decide (x = l)) as [->|Hne].
      * assert (x' = l') as -> by congruence.
        exists o, rs. split_and!; [done| |done].
        apply list_lookup_insert_eq. by apply (Hb l).
      * destruct (Hd x x' Hx) as (o' & rs' & Ho' & Hcopy & Himg).
        { intros [?|?]; [by apply Hnp|done]. }
        exists o', rs'. split_and!; [done| |done].
        rewrite list_lookup_insert_ne; [done|].
        intros <-. apply Hne. by eapply Hi.
  - etrans; [|done]. by apply insert_subseteq.
Qed.
End deepcopy_memo.

Lemma ref_in_within (h : heap) (r : ref) :
  ref_in h r ↔ ref_within (λ l, l < length h) r.
Proof. by destruct r. Qed.

Lemma closed_region (h : heap) : closed h → region_closed (λ l, l < length h) h.
Proof.
  intros Hc l o _ Ho. eapply Forall_impl; [by apply (Hc l)|].
  intros r. apply ref_in_within.
Qed.

(** More depth does not change a value that was read. *)
Lemma reify_mono (h : heap) (k k' : nat) (r : ref) (v : value) :
  reify k h r = Some v → k ≤ k' → reify k' h r = Some v.
Proof.
  revert k' r v. induction k as [|k IH]; intros k' r v Hv Hk.
  - destruct r; simpl in *; try done; by destruct k'.
  - destruct r as [| | | |l]; try (by destruct k').
    destruct k' as [|k']; [lia|]. simpl in *.
    destruct (h !! l) as [o|]; simpl in *; [|done].
    destruct (mapM (reify k h) (refs_of o)) as [vs|] eqn:E; simpl in *; [|done].
    apply mapM_Some in E.
    rewrite (proj2 (mapM_Some (reify k' h) (refs_of o) vs)); [done|].
    eapply Forall2_impl; [done|]. intros r v' Hr. apply IH; [done|lia].
Qed.

(** A value is read from the region of its object alone. *)
Lemma reify_agree (region : loc → Prop) (h h2 : heap) :
  region_closed region h →
  (∀ l, region l → h2 !! l = h !! l) →
  ∀ k r, ref_within region r → reify k h2 r = reify k h r.
Proof.
  intros Hc Hsame k. induction k as [|k IH]; intros r Hr.
  - by destruct r.
  - destruct r as [| | | |l]; try done. simpl in *.
    rewrite (Hsame l Hr). destruct (h !! l) as [o|] eqn:Ho; [|done].
    simpl. f_equal. apply Forall_mapM_ext.
    eapply Forall_impl; [by apply (Hc l)|]. intros r Hr'. by apply IH.
Qed.

Lemma reify_prefix (h0 h : heap) (k : nat) (r : ref) :
  closed h0 → h0 `prefix_of` h → ref_in h0 r → reify k h r = reify k h0 r.
Proof.
  intros Hc Hpre Hr.
  apply (reify_agree (λ l, l < length h0)).
  - by apply closed_region.
  - intros l Hl. destruct (lookup_lt_is_Some_2 h0 l Hl) as [o Ho].
    rewrite Ho. by eapply prefix_lookup_Some.
  - by apply ref_in_within.
Qed.

Lemma refs_of_with_refs (o : obj) (rs : list ref) :
  length (refs_of o) = length rs → refs_of (with_refs o rs) = rs.
Proof.
  destruct o as [items|xs]; simpl; [|done].
  rewrite !length_fmap. intros Hlen. apply snd_zip.
  rewrite length_fmap. lia.
Qed.

Lemma value_of_with_refs (o : obj) (rs : list ref) (vs : list value) :
  length (refs_of o) = length rs →
  value_of (with_refs o rs) vs = value_of o vs.
Proof.
  destruct o as [items|xs]; simpl; [|done].
  rewrite !length_fmap. intros Hlen. f_equal. f_equal. apply fst_zip.
  rewrite length_fmap. lia.
Qed.

Section copied.
Context (h0 h : heap) (m : memo).
Context (Hclosed : closed h0) (Hcopied : copying h0 (λ _, False) h m).

(** The copy denotes the value of the original. *)
Lemma copied_reify (k : nat) (r r' : ref) :
  image m r = Some r' → reify k h r' = reify k h0 r.
Proof.
  revert r r'. induction k as [|k IH]; intros r r' Himg.
  - destruct r as [| | | |l]; simpl in Himg; try by injection Himg as <-.
    destruct (m !! l); [|done]. by injection Himg as <-.
  - destruct r as [| | | |l]; simpl in Himg; try by injection Himg as <-.
    destruct (m !! l) as [l'|] eqn:Hl; [|done]. injection Himg as <-.
    destruct (copying_done _ _ _ _ Hcopied l l' Hl) as (o & rs & Ho & Hc & Hrs);
      [tauto|].
    simpl. rewrite Ho, Hc. simpl.
    pose proof (Forall2_length _ _ _ Hrs) as Hlen.
    rewrite refs_of_with_refs by done.
    rewrite (Forall2_mapM_ext (reify k h) (reify k h0) rs (refs_of o)).
    + destruct (mapM (reify k h0) (refs_of o)); simpl; [|done].
      by rewrite value_of_with_refs.
    + apply Forall2_flip. eapply Forall2_impl; [done|].
      intros x y Hxy. simpl. by apply IH.
Qed.

(** The copies lie beyond the objects of [h0]. *)
Lemma copied_fresh (r r' : ref) :
  image m r = Some r' →
  ref_within (λ l, length h0 ≤ l < length h) r'.
Proof.
  destruct r as [| | | |l]; simpl; try by intros [= <-].
  destruct (m !! l) as [l'|] eqn:Hl; [|done]. intros [= <-]. simpl.
  by apply (copying_bounds _ _ _ _ Hcopied l).
Qed.

(** The copies hold addresses of copies only. *)
Lemma copied_region : region_closed (λ l, length h0 ≤ l < length h) h.
Proof.
  intros l' o' Hl' Ho'.
  destruct (copying_onto _ _ _ _ Hcopied l' Hl') as [l Hl].
  destruct (copying_done _ _ _ _ Hcopied l l' Hl) as (o & rs & Ho & Hc & Hrs);
    [tauto|].
  rewrite Hc in Ho'. injection Ho' as <-.
  rewrite refs_of_with_refs by by eapply Forall2_length.
  apply Forall_forall. intros r' Hr'.
  apply list_elem_of_lookup in Hr' as [i Hi].
  destruct (Forall2_lookup_r _ _ _ _ _ Hrs Hi) as (r & _ & Himg).
  by eapply copied_fresh.
Qed.

Lemma copied_closed : closed h.
Proof.
  pose proof (copying_prefix _ _ _ _ Hcopied) as Hpre.
  pose proof (prefix_length _ _ Hpre) as Hlen.
  intros l o Ho. destruct (decide (l < length h0)) as [Hl|Hl].
  - destruct (lookup_lt_is_Some_2 h0 l Hl) as [o0 Ho0].
    rewrite (prefix_lookup_Some _ _ _ _ Ho0 Hpre) in Ho. injection Ho as <-.
    eapply Forall_impl; [by apply (Hclosed l)|].
    intros [| | | |x]; simpl; try done. lia.
  - assert (Hl' : length h0 ≤ l < length h).
    { split; [lia|]. by eapply lookup_lt_Some. }
    eapply Forall_impl; [by apply (copied_region l o Hl')|].
    intros [| | | |x]; simpl; try done. lia.
Qed.
End copied.

(** [deepcopy] returns: the depth of its recursion is sufficient. *)
Lemma deepcopy_spec (h : heap) (r : ref) :
  closed h → ref_in h r →
  ∃ r' h' m, deepcopy h r = Some (r', h') ∧
    copying h (λ _, False) h' m ∧ image m r = Some r'.
Proof.
  intros Hc Hr.
  destruct (deepcopy_memo_spec h Hc (S (length h)) r (λ _, False) h ∅)
    as (r' & h' & m' & Hcopy & Hinv & _ & Himg).
  - apply copying_start.
  - done.
  - rewrite unseen_empty. lia.
  - exists r', h', m'. unfold deepcopy. by rewrite Hcopy.
Qed.

(** The copy of an object: a new object, beyond the heap before the call,
    that denotes the same value and from which only new objects are
    reached; the objects of the heap before the call are as they were. *)
Lemma deepcopy_obj_spec (h : heap) (l : loc) :
  closed h → l < length h →
  ∃ l' h', deepcopy_obj h l = Some (l', h') ∧
    h `prefix_of` h' ∧ closed h' ∧
    length h ≤ l' < length h' ∧
    region_closed (λ x, length h ≤ x < length h') h' ∧
    ∀ k, reify k h' (RObj l') = reify k h (RObj l).
Proof.
  intros Hc Hl.
  destruct (deepcopy_spec h (RObj l) Hc Hl) as (r' & h' & m & Hcopy & Hinv & Himg).
  simpl in Himg. destruct (m !! l) as [l'|] eqn:Hm; [|done].
  injection Himg as <-.
  exists l', h'. unfold deepcopy_obj. rewrite Hcopy. simpl.
  split_and!; try done.
  - by apply (copying_prefix _ _ _ _ Hinv).
  - by eapply copied_closed.
  - by apply (copying_bounds _ _ _ _ Hinv l).
  - by apply (copying_bounds _ _ _ _ Hinv l).
  - by eapply copied_region.
  - intros k. apply (copied_reify h h' m Hinv). simpl. by rewrite Hm.
Qed.

(** ** Regions *)

Lemma reach_region (region : loc → Prop) (h : heap) (r : ref) (x : loc) :
  region_closed region h → ref_within region r → reach h r x → region x.
Proof.
  intros Hc Hr Hreach. induction Hreach as [l|l o r x Ho Hin _ IH]; [done|].
  apply IH. pose proof (Hc l o Hr Ho) as Hall.
  rewrite Forall_forall in Hall. by apply Hall.
Qed.

Lemma reach_step (h : heap) (r : ref) (x y : loc) (o : obj) :
  reach h r x → h !! x = Some o → RObj y ∈ refs_of o → reach h r y.
Proof.
  intros Hreach Ho Hin. induction Hreach as [l|l o' r x Ho' Hin' _ IH].
  - eapply reach_member; [done..|]. constructor.
  - eapply reach_member; [done..|]. by apply IH.
Qed.

Lemma reach_allocated (h : heap) (r : ref) (x : loc) :
  closed h → ref_in h r → reach h r x → x < length h.
Proof.
  intros Hc Hr. apply (reach_region (λ l, l < length h)).
  - by apply closed_region.
  - by apply ref_in_within.
Qed.







(** ** Reading the store *)

Lemma read_agree (region : loc → Prop) (h h2 : heap) (r : ref) (v : value) :
  region_closed region h →
  (∀ l, region l → h2 !! l = h !! l) →
  length h ≤ length h2 →
  ref_within region r →
  read h r = Some v → read h2 r = Some v.
Proof.
  intros Hc Hsame Hlen Hr Hv. unfold read in *.
  apply (reify_mono h2 (S (length h))); [|lia].
  by rewrite (reify_agree region h h2 Hc Hsame).
Qed.

Lemma read_dict_agree (region : loc → Prop) (h h2 : heap) (d : loc)
    (doc : dict) :
  region_closed region h →
  (∀ l, region l → h2 !! l = h !! l) →
  length h ≤ length h2 →
  region d →
  read_dict h d = Some doc → read_dict h2 d = Some doc.
Proof.
  intros Hc Hsame Hlen Hd. unfold read_dict.
  destruct (read h (RObj d)) as [v|] eqn:Hv; [|done].
  by rewrite (read_agree region h h2 (RObj d) v Hc Hsame Hlen Hd Hv).
Qed.

Lemma read_docs_agree (region : loc → Prop) (h h2 : heap) (ds : list loc)
    (docs : list dict) :
  region_closed region h →
  (∀ l, region l → h2 !! l = h !! l) →
  length h ≤ length h2 →
  Forall region ds →
  read_docs h ds = Some docs → read_docs h2 ds = Some docs.
Proof.
  intros Hc Hsame Hlen Hds Hdocs. unfold read_docs in *.
  apply mapM_Some in Hdocs. apply mapM_Some.
  induction Hdocs as [|d doc ds docs Hd _ IH]; [constructor|].
  apply Forall_cons in Hds as [Hd' Hds]. constructor; [|by apply IH].
  by eapply read_dict_agree.
Qed.



(** ** The heap in the course of an operation *)

Lemma ref_within_impl (P Q : loc → Prop) (r : ref) :
  (∀ l, P l → Q l) → ref_within P r → ref_within Q r.
Proof. intros HPQ. destruct r; simpl; auto. Qed.



(** A new object that holds addresses of the store or of new objects. *)
Lemma grown_alloc (st : state) (h : heap) (o : obj) :
  grown st h →
  Forall (ref_within (λ x, owned st x ∨ length st.1 ≤ x)) (refs_of o) →
  Forall (ref_in h) (refs_of o) →
  grown st (h ++ [o]).
Proof.
  intros Hg Hreg Hin. pose proof (grown_length _ _ Hg) as Hlen. split.
  - rewrite length_app. lia.
  - intros x o' Ho'.
    apply lookup_app_Some in Ho' as [Ho'|[Hx Ho']].
    + eapply Forall_impl; [by apply (grown_closed _ _ Hg x)|].
      intros [| | | |y]; simpl; try done. rewrite length_app. lia.
    + apply list_lookup_singleton_Some in Ho' as [_ <-].
      eapply Forall_impl; [done|].
      intros [| | | |y]; simpl; try done. rewrite length_app. lia.
  - intros x Hx Hno. rewrite lookup_app_l by lia.
    by apply (grown_frame _ _ Hg).
  - intros x o' Hx Ho'.
    apply lookup_app_Some in Ho' as [Ho'|[_ Ho']].
    + by apply (grown_region _ _ Hg x).
    + by apply list_lookup_singleton_Some in Ho' as [_ <-].
Qed.



(** ** What the operations read *)

Lemma read_dict_object (h : heap) (d : loc) (doc : dict) :
  read_dict h d = Some doc →
  d < length h ∧ ∃ items, h !! d = Some (ODict items).
Proof.
  unfold read_dict, read. simpl.
  destruct (h !! d) as [o|] eqn:Ho; simpl; [|done].
  intros Hdoc. split; [by eapply lookup_lt_Some|].
  destruct o as [items|xs]; [by eexists|].
  by destruct (mapM (reify (length h) h) (refs_of (OList xs))).
Qed.


(** The copy reads as the original. *)
Lemma read_dict_copy (h h' : heap) (d d' : loc) (doc : dict) :
  length h ≤ length h' →
  (∀ k, reify k h' (RObj d') = reify k h (RObj d)) →
  read_dict h d = Some doc → read_dict h' d' = Some doc.
Proof.
  intros Hlen Hval. unfold read_dict, read. rewrite Hval.
  destruct (reify (S (length h)) h (RObj d)) as [v|] eqn:Hv; [|done].
  by rewrite (reify_mono h (S (length h)) (S (length h')) _ v Hv) by lia.
Qed.




(** ** [find_one] and [find] *)




(** ** The operations that store records *)

Lemma collection_ensure_any (c c' : string) (db : collections) :
  collection (ensure_collection c db) c' = collection db c'.
Proof.
  unfold collection, ensure_collection.
  destruct (db !! c) as [docs|] eqn:E; [done|].
  destruct (decide (c = c')) as [<-|Hne].
  - by rewrite lookup_insert_eq, E.
  - by rewrite lookup_insert_ne.
Qed.



Lemma items_set_refs (items : list (string * ref)) (key : string) (v r : ref) :
  r ∈ (items_set items key v).*2 → r = v ∨ r ∈ items.*2.
Proof.
  induction items as [|[k w] items IH]; simpl.
  - intros Hr. apply list_elem_of_singleton in Hr. by left.
  - destruct (String.eqb k key); simpl; intros Hr.
    + apply elem_of_cons in Hr as [->|Hr]; [by left|]. right. by right.
    + apply elem_of_cons in Hr as [->|Hr]; [right; by left|].
      destruct (IH Hr) as [->|Hin]; [by left|]. right. by right.
Qed.

Lemma items_update_refs (items other : list (string * ref)) (r : ref) :
  r ∈ (items_update items other).*2 → r ∈ items.*2 ∨ r ∈ other.*2.
Proof.
  unfold items_update. revert items.
  induction other as [|[k v] other IH]; intros items; simpl; [by left|].
  intros Hr. destruct (IH _ Hr) as [Hin|Hin].
  - destruct (items_set_refs _ _ _ _ Hin) as [->|Hin']; [right; by left|].
    by left.
  - right. by right.
Qed.









(** ** What a read returns *)



(** A mutation that stores allocated addresses keeps the heap closed. *)
Lemma closed_poke (x : loc) (o : obj) (st : state) :
  closed st.1 → Forall (ref_in st.1) (refs_of o) → closed (poke x o st).1.
Proof.
  intros Hc Ho y o' Hy. simpl in *.
  assert (Hall : Forall (ref_in st.1) (refs_of o')).
  { destruct (decide (y = x)) as [->|Hne].
    - apply list_lookup_insert_Some in Hy as [(_ & <- & _)|[? _]]; done.
    - rewrite list_lookup_insert_ne in Hy by done. by apply (Hc y). }
  eapply Forall_impl; [done|].
  intros [| | | |z]; simpl; try done. by rewrite length_insert.
Qed.


(** ** The operations return *)




(** ** The claim *)


(** ** The theorem at a concrete store *)

Lemma closedb_closed (h : heap) : closedb h = true → closed h.
Proof.
  unfold closedb. rewrite forallb_forall. intros Hall l o Ho.
  apply list_elem_of_lookup_2, list_elem_of_In, Hall in Ho.
  rewrite forallb_forall in Ho. apply Forall_forall. intros r Hr.
  apply list_elem_of_In, Ho in Hr. destruct r; simpl; try done.
  by apply Nat.ltb_lt.
Qed.



(** ** Records that share an object *)

(** [insert] copies the batch as a whole, so the stored records share what
    the records of the batch share; [update_many] on the first record of
    such a batch is then seen through the second, which the query does not
    match. *)
Lemma update_many_shared_object :
  (st1 ← snd <$> insert "users" 2 (sharing_heap, ∅);
   view st1 "users")
  = Some [Scenario.alice;
          [("_id", VStr "u2"); ("child", VDict Scenario.alice)]] ∧
  _matches_query
    (VDict [("_id", VStr "u2"); ("child", VDict Scenario.alice)])
    [("name", VStr "Alice")] = Ok false ∧
  (st1 ← snd <$> insert "users" 2 (sharing_heap, ∅);
   st2 ← snd <$> update_many "users" [("name", VStr "Alice")] 4 st1;
   view st2 "users")
  = Some [[("_id", VStr "u1"); ("name", VStr "Alicia");
           ("address", VDict [("city", VStr "NYC")])];
          [("_id", VStr "u2");
           ("child", VDict [("_id", VStr "u1"); ("name", VStr "Alicia");
                            ("address", VDict [("city", VStr "NYC")])])]].
Proof. split_and!; vm_compute; reflexivity. Qed.

(** ** [insert_one] on the heap and on values *)

Lemma read_docs_prefix (h h' : heap) (ds : list loc) (docs : list dict) :
  closed h → h `prefix_of` h' →
  read_docs h ds = Some docs → read_docs h' ds = Some docs.
Proof.
  intros Hc Hpre Hdocs.
  apply (read_docs_agree (λ l, l < length h) h h'); try done.
  - by apply closed_region.
  - intros l Hl. destruct (lookup_lt_is_Some_2 h l Hl) as [o Ho].
    rewrite Ho. by eapply prefix_lookup_Some.
  - by apply prefix_length.
  - unfold read_docs in Hdocs. apply mapM_Some in Hdocs.
    apply Forall_forall. intros d Hd.
    apply list_elem_of_lookup in Hd as [i Hi].
    destruct (Forall2_lookup_l _ _ _ _ _ Hdocs Hi) as (doc & _ & Hdoc).
    by apply read_dict_object in Hdoc as [? _].
Qed.

(** On a store whose documents of collection [c] read as [docs],
    [insert_one] with a record that reads as [doc] does what [insert_one]
    on values does: it raises [DuplicateKeyError] with the [_id] of the
    record when a stored document has that [_id], the collection reading
    as before; otherwise it succeeds and the collection then reads as
    [docs] followed by [doc]. *)
Theorem insert_one_reads_as_on_values (c : string) (d : loc)
    (docs : list dict) (doc : dict) (st : state) :
  closed st.1 →
  view st c = Some docs →
  read_dict st.1 d = Some doc →
  ∃ st',
    insert_one c d st
      = Some (if id_taken docs doc
              then Raise (DuplicateKeyError (doc_id doc)) else Ok (), st') ∧
    view st' c = Some (if id_taken docs doc then docs else docs ++ [doc]).
Proof.
  intros Hc Hview Hdoc. unfold insert_one, view in *.
  rewrite collection_ensure_any, Hview, Hdoc. simpl.
  destruct (id_taken docs doc).
  - eexists. split; [done|]. simpl. by rewrite collection_ensure_any.
  - destruct (deepcopy_obj_spec st.1 d Hc)
      as (d' & h' & Heq & Hpre & _ & _ & _ & Hval).
    { by apply read_dict_object in Hdoc as [? _]. }
    rewrite Heq. simpl. eexists. split; [done|]. simpl.
    unfold collection at 1. rewrite lookup_insert_eq. simpl.
    pose proof (read_docs_prefix st.1 h' _ docs Hc Hpre Hview) as Hold.
    unfold read_docs in *. apply mapM_Some, Forall2_app.
    + by apply mapM_Some.
    + constructor; [|constructor].
      exact (read_dict_copy st.1 h' d d' doc (prefix_length _ _ Hpre)
               Hval Hdoc).
Qed.

Lemma insert_one_reads_as_on_values_witness :
  ∃ st', insert_one "users" 1 (caller_heap, ∅) = Some (Ok (), st') ∧
         view st' "users" = Some [Scenario.alice].
Proof.
  destruct (insert_one_reads_as_on_values "users" 1 [] Scenario.alice
              (caller_heap, ∅)) as (st' & Hins & Hview).
  - exact (closedb_closed caller_heap eq_refl).
  - vm_compute. reflexivity.
  - vm_compute. reflexivity.
  - exists st'. split; [exact Hins|exact Hview].
Defined.

(** ** Reading a record member by member *)

Lemma items_read_mapM (k : nat) (h : heap) (items : list (string * ref))
    (doc : dict) :
  items_read k h items doc ↔
  ∃ vs, mapM (reify k h) items.*2 = Some vs ∧ doc = zip items.*1 vs.
Proof.
  split.
  - induction 1 as [|[key r] [key' v] items doc [Hk Hv] _ IH].
    + by exists [].
    + destruct IH as (vs & Hvs & ->). exists (v :: vs).
      simpl in Hk, Hv. subst key'. split; [|done].
      apply mapM_Some. apply mapM_Some in Hvs. by constructor.
  - intros (vs & Hvs & ->). apply mapM_Some in Hvs. revert vs Hvs.
    induction items as [|[key r] items IH]; intros vs Hvs; simpl in *.
    + apply Forall2_nil_inv_l in Hvs as ->. constructor.
    + apply Forall2_cons_inv_l in Hvs as (v & vs' & Hv & Hvs' & ->).
      simpl. constructor; [done|]. by apply IH.
Qed.

Lemma reify_dict (k : nat) (h : heap) (d : loc) (doc : dict) :
  reify (S k) h (RObj d) = Some (VDict doc) ↔
  ∃ items, h !! d = Some (ODict items) ∧ items_read k h items doc.
Proof.
  simpl. split.
  - destruct (h !! d) as [[items|xs]|]; simpl; [| |done].
    + destruct (mapM (reify k h) items.*2) as [vs|] eqn:Hvs; simpl; [|done].
      intros [= <-]. exists items. split; [done|].
      apply items_read_mapM. by exists vs.
    + by destruct (mapM (reify k h) xs).
  - intros (items & -> & Hread). apply items_read_mapM in Hread
      as (vs & Hvs & ->). simpl. by rewrite Hvs.
Qed.

Lemma items_set_read (k : nat) (h : heap) (items : list (string * ref))
    (doc : dict) (key : string) (r : ref) (v : value) :
  items_read k h items doc → reify k h r = Some v →
  items_read k h (items_set items key r) (dict_set doc key v).
Proof.
  intros Hread Hv.
  induction Hread as [|[k1 r1] [k2 v2] items doc [Hk Hr] Hrest IH]; simpl in *.
  - by repeat constructor.
  - subst k2. destruct (String.eqb k1 key).
    + by constructor.
    + by constructor.
Qed.

Lemma items_update_read (k : nat) (h : heap) (items other : list (string * ref))
    (doc patch : dict) :
  items_read k h items doc → items_read k h other patch →
  items_read k h (items_update items other) (dict_update doc patch).
Proof.
  intros Hread Hother. unfold items_update, dict_update.
  revert items doc Hread.
  induction Hother as [|[k1 r1] [k2 v2] other patch [Hk Hr] _ IH];
    intros items doc Hread; simpl in *; [done|].
  subst k2. apply IH. by apply items_set_read.
Qed.

(** ** A record that can be read holds no cycle *)

Lemma reify_member (k : nat) (h : heap) (l : loc) (o : obj) (r : ref)
    (v : value) :
  reify (S k) h (RObj l) = Some v → h !! l = Some o → r ∈ refs_of o →
  ∃ v', reify k h r = Some v'.
Proof.
  simpl. intros Hv Ho Hr. rewrite Ho in Hv. simpl in Hv.
  destruct (mapM (reify k h) (refs_of o)) as [vs|] eqn:Hvs; [|done].
  apply mapM_Some in Hvs. apply list_elem_of_lookup in Hr as [i Hi].
  destruct (Forall2_lookup_l _ _ _ _ _ Hvs Hi) as (v' & _ & Hv').
  by exists v'.
Qed.

Lemma reify_reach (k : nat) (h : heap) (r : ref) (x : loc) (v : value) :
  reify k h r = Some v → reach h r x → ∃ v', reify k h (RObj x) = Some v'.
Proof.
  intros Hv Hreach. revert k v Hv.
  induction Hreach as [l|l o r x Ho Hin _ IH]; intros k v Hv; [by exists v|].
  destruct k as [|k]; [done|].
  destruct (reify_member k h l o r v Hv Ho Hin) as [v' Hv'].
  destruct (IH k v' Hv') as [v'' Hv''].
  exists v''. apply (reify_mono h k); [done|lia].
Qed.

Lemma reify_acyclic (k : nat) (h : heap) (d : loc) (o : obj) (r : ref)
    (v : value) :
  reify k h (RObj d) = Some v → h !! d = Some o → r ∈ refs_of o →
  ¬ reach h r d.
Proof.
  intros Hv Ho Hr Hreach. revert v Hv.
  induction k as [|k IH]; intros v Hv; [done|].
  destruct (reify_member k h d o r v Hv Ho Hr) as [v' Hv'].
  destruct (reify_reach k h r d v' Hv' Hreach) as [v'' Hv''].
  by apply (IH v'').
Qed.

(** ** What is reached, when objects outside are written to *)

Lemma reach_closed (h : heap) (r : ref) : region_closed (reach h r) h.
Proof.
  intros x o Hx Ho. apply Forall_forall.
  intros [| | | |y] Hy; simpl; try done. by eapply reach_step.
Qed.

Lemma reach_agree (region : loc → Prop) (h h2 : heap) (r : ref) (x : loc) :
  region_closed region h → (∀ l, region l → h2 !! l = h !! l) →
  ref_within region r → reach h2 r x → reach h r x.
Proof.
  intros Hc Hsame Hr Hreach.
  induction Hreach as [l|l o r x Ho Hin _ IH]; [constructor|].
  simpl in Hr. rewrite (Hsame l Hr) in Ho.
  eapply reach_member; [done..|]. apply IH.
  pose proof (Hc l o Hr Ho) as Hall. rewrite Forall_forall in Hall.
  by apply Hall.
Qed.

Lemma read_dict_reify (h : heap) (d : loc) (doc : dict) :
  read_dict h d = Some doc ↔ reify (S (length h)) h (RObj d) = Some (VDict doc).
Proof.
  unfold read_dict, read.
  destruct (reify (S (length h)) h (RObj d)) as [[]|]; naive_solver.
Qed.

Lemma items_read_impl (k k' : nat) (h h' : heap) (items : list (string * ref))
    (doc : dict) :
  items_read k h items doc →
  (∀ r v, r ∈ items.*2 → reify k h r = Some v → reify k' h' r = Some v) →
  items_read k' h' items doc.
Proof.
  induction 1 as [|[key r] [key' v] items doc [Hk Hv] _ IH]; intros Himpl;
    constructor.
  - split; [done|]. apply Himpl; [by left|done].
  - apply IH. intros r' v' Hr'. apply Himpl. by right.
Qed.

(** ** [doc.update(deepcopy(document))] on a record that can be read *)

(** The record is written to and nothing else of the heap before the call;
    it then reads as its value before, updated with the value of the
    patch, and holds what it held before and new objects. *)
Lemma update_doc_reads (d p : loc) (doc patch : dict) (h : heap) :
  closed h → read_dict h d = Some doc → read_dict h p = Some patch →
  ∃ h', update_doc d p h = Some h' ∧ closed h' ∧ length h ≤ length h' ∧
    (∀ x, x < length h → x ≠ d → h' !! x = h !! x) ∧
    read_dict h' d = Some (dict_update doc patch) ∧
    (∀ x, reach h' (RObj d) x → reach h (RObj d) x ∨ length h ≤ x).
Proof.
  intros Hc Hd Hp.
  pose proof (proj1 (read_dict_object h p patch Hp)) as Hplt.
  pose proof (proj1 (read_dict_object h d doc Hd)) as Hdlt.
  apply read_dict_reify in Hd, Hp.
  destruct (deepcopy_obj_spec h p Hc Hplt)
    as (p' & hc & Hcopy & Hpre & Hcc & Hb & Hreg & Hval).
  pose proof (prefix_length _ _ Hpre) as Hlen.
  pose proof Hd as Hd'. apply reify_dict in Hd' as (items & Hitems & Hread).
  rewrite <- Hval in Hp. apply reify_dict in Hp as (other & Hother & Hreado).
  pose proof (prefix_lookup_Some _ _ _ _ Hitems Hpre) as Hitems'.
  assert (Hframe : ∀ x, x < length h → x ≠ d →
            <[d := ODict (items_update items other)]> hc !! x = h !! x).
  { intros x Hx Hne. rewrite list_lookup_insert_ne by done.
    destruct (lookup_lt_is_Some_2 h x Hx) as [o Ho]. rewrite Ho.
    by eapply prefix_lookup_Some. }
  assert (Hold : ∀ r, r ∈ items.*2 → ∀ y, reach h r y → reach h (RObj d) y).
  { intros r Hr y Hy. by eapply reach_member. }
  assert (Hnew : ∀ r, r ∈ other.*2 →
            ref_within (λ x, length h ≤ x < length hc) r).
  { intros r Hr. pose proof (Hreg p' _ Hb Hother) as Hall.
    rewrite Forall_forall in Hall. by apply Hall. }
  unfold update_doc. rewrite Hcopy. simpl. rewrite Hitems', Hother.
  eexists. split; [done|]. split_and!.
  - apply (closed_poke d _ (hc, ∅)); [done|]. simpl.
    apply Forall_forall. intros r Hr.
    destruct (items_update_refs _ _ _ Hr) as [Hin|Hin].
    + pose proof (Hcc d _ Hitems') as Hall.
      rewrite Forall_forall in Hall. by apply Hall.
    + pose proof (Hcc p' _ Hother) as Hall.
      rewrite Forall_forall in Hall. by apply Hall.
  - rewrite length_insert. lia.
  - exact Hframe.
  - apply read_dict_reify, reify_dict. rewrite length_insert.
    exists (items_update items other). split.
    { apply list_lookup_insert_eq. lia. }
    apply items_update_read.
    + apply (items_read_impl (length h) _ h); [done|]. intros r v Hr Hv.
      apply (reify_mono _ (length h)); [|lia]. rewrite <- Hv.
      apply (reify_agree (reach h r) h _ (reach_closed h r)).
      * intros l Hl. apply Hframe.
        -- apply (reach_allocated h r); [done| |done].
           pose proof (Hc d _ Hitems) as Hall.
           rewrite Forall_forall in Hall. by apply Hall.
        -- intros ->. by apply (reify_acyclic _ _ _ _ r _ Hd Hitems).
      * destruct r; simpl; try done. constructor.
    + apply (items_read_impl (length h) _ hc); [done|]. intros r v Hr Hv.
      apply (reify_mono _ (length h)); [|lia]. rewrite <- Hv.
      apply (reify_agree _ hc _ Hreg).
      * intros l Hl. apply list_lookup_insert_ne. lia.
      * by apply Hnew.
  - intros x Hx.
    apply (reach_region (λ x, reach h (RObj d) x ∨ length h ≤ x) _ _ _)
      with (3 := Hx).
    + intros l o Hl Ho. apply Forall_forall. intros r Hr.
      destruct (decide (l = d)) as [->|Hne].
      * rewrite list_lookup_insert_eq in Ho by lia. injection Ho as <-.
        simpl in Hr. destruct (items_update_refs _ _ _ Hr) as [Hin|Hin].
        -- destruct r; simpl; try done. left.
           apply (Hold _ Hin). constructor.
        -- eapply ref_within_impl; [|by apply Hnew]. simpl. intros y Hy.
           right. lia.
      * destruct (decide (l < length h)) as [Hlt|Hge].
        -- rewrite Hframe in Ho by done. destruct Hl as [Hl|Hl]; [|lia].
           destruct r; simpl; try done. left. by eapply reach_step.
        -- rewrite list_lookup_insert_ne in Ho by done.
           assert (Hl' : length h ≤ l < length hc).
           { split; [lia|]. by eapply lookup_lt_Some. }
           pose proof (Hreg l o Hl' Ho) as Hall.
           rewrite Forall_forall in Hall.
           eapply ref_within_impl; [|by apply Hall]. simpl. intros y Hy.
           right. lia.
    + simpl. left. constructor.
Qed.

(** ** The loop of [update_many] on records none of which holds another *)

Lemma apart_cons (h : heap) (d : loc) (ds : list loc) :
  apart h (d :: ds) →
  apart h ds ∧
  ∀ d', d' ∈ ds → ¬ reach h (RObj d) d' ∧ ¬ reach h (RObj d') d.
Proof.
  intros Hap. split.
  - intros i j di dj Hi Hj Hne. apply (Hap (S i) (S j)); [done|done|lia].
  - intros d' Hd'. apply list_elem_of_lookup in Hd' as [j Hj]. split.
    + by apply (Hap 0 (S j)).
    + by apply (Hap (S j) 0).
Qed.

Lemma read_dict_frame (h h2 : heap) (d : loc) (doc : dict) :
  (∀ x, reach h (RObj d) x → h2 !! x = h !! x) → length h ≤ length h2 →
  read_dict h d = Some doc → read_dict h2 d = Some doc.
Proof.
  intros Hsame Hlen.
  apply (read_dict_agree (reach h (RObj d))); try done.
  - apply reach_closed.
  - constructor.
Qed.

Lemma read_docs_frame (h h2 : heap) (ds : list loc) (docs : list dict) :
  (∀ d x, d ∈ ds → reach h (RObj d) x → h2 !! x = h !! x) →
  length h ≤ length h2 →
  read_docs h ds = Some docs → read_docs h2 ds = Some docs.
Proof.
  intros Hsame Hlen Hdocs. unfold read_docs in *.
  apply mapM_Some in Hdocs. apply mapM_Some.
  induction Hdocs as [|d doc ds docs Hd _ IH]; [constructor|].
  constructor.
  - apply (read_dict_frame h); [|done..]. intros x. apply Hsame. by left.
  - apply IH. intros d' x Hd'. apply Hsame. by right.
Qed.

Lemma reach_frame (h h2 : heap) (r : ref) (x : loc) :
  (∀ y, reach h r y → h2 !! y = h !! y) → reach h2 r x → reach h r x.
Proof.
  intros Hsame. apply (reach_agree (reach h r)); [apply reach_closed|done|].
  destruct r; simpl; try done. constructor.
Qed.

(** When no record of the collection is held by another record of the
    collection or by the patch, the loop on the heap does to the values of
    the records what the loop on values does; it writes to the records
    only. *)
Lemma update_loop_reads (query patch : dict) (p : loc) (ds : list loc) :
  ∀ (docs : list dict) (h : heap),
    closed h → read_docs h ds = Some docs → read_dict h p = Some patch →
    (∀ d, d ∈ ds → ¬ reach h (RObj p) d) → apart h ds →
    ∃ h',
      update_loop ds query p h
        = Some ((value_update_loop docs query patch).2, h') ∧
      closed h' ∧ length h ≤ length h' ∧
      (∀ x, x < length h → x ∉ ds → h' !! x = h !! x) ∧
      read_docs h' ds = Some (value_update_loop docs query patch).1.
Proof.
  induction ds as [|d ds IH]; intros docs h Hc Hdocs Hp Hpatch Hap.
  - apply mapM_Some, Forall2_nil_inv_l in Hdocs as ->. by exists h.
  - apply mapM_Some, Forall2_cons_inv_l in Hdocs
      as (doc & docs' & Hdoc & Hdocs' & ->).
    pose proof (proj2 (mapM_Some _ _ _) Hdocs') as Hread'.
    apply apart_cons in Hap as [Hap Hd].
    pose proof (proj1 (read_dict_object h d doc Hdoc)) as Hdlt.
    pose proof (proj1 (read_dict_object h p patch Hp)) as Hplt.
    assert (Hlt : ∀ d', d' ∈ ds → d' < length h).
    { intros d' Hd'. apply list_elem_of_lookup in Hd' as [i Hi].
      destruct (Forall2_lookup_l _ _ _ _ _ Hdocs' Hi) as (doc' & _ & Hdoc').
      by apply read_dict_object in Hdoc' as [? _]. }
    simpl. rewrite Hdoc. simpl.
    destruct (_matches_query (VDict doc) query) as [[]|e] eqn:Hm.
    + destruct (update_doc_reads d p doc patch h Hc Hdoc Hp)
        as (h1 & Hupd & Hc1 & Hlen1 & Hframe1 & Hdoc1 & Hreach1).
      rewrite Hupd. simpl.
      assert (Hsame : ∀ l, l < length h → ¬ reach h (RObj l) d →
                ∀ x, reach h (RObj l) x → h1 !! x = h !! x).
      { intros l Hl Hr x Hx. apply Hframe1; [|by intros ->].
        by apply (reach_allocated h (RObj l)). }
      destruct (IH docs' h1) as (h' & Hloop & Hc' & Hlen' & Hframe' & Hdocs1).
      * done.
      * apply (read_docs_frame h); [|done..]. intros d' x Hd'.
        apply Hsame; [by apply Hlt|by apply Hd].
      * apply (read_dict_frame h); [|done..].
        apply Hsame; [done|]. apply Hpatch. by left.
      * intros d' Hd' Hr. apply (Hpatch d'); [by right|].
        apply (reach_frame h h1); [|done].
        apply Hsame; [done|]. apply Hpatch. by left.
      * intros i j di dj Hi Hj Hne Hr. apply (Hap i j di dj Hi Hj Hne).
        apply (reach_frame h h1); [|done].
        pose proof (list_elem_of_lookup_2 _ _ _ Hi) as Hin.
        apply Hsame; [by apply Hlt|by apply Hd].
      * exists h'. rewrite Hloop.
        destruct (value_update_loop docs' query patch) as [rest e]. simpl in *.
        split_and!; [done|done|lia| |].
        -- intros x Hx Hnin. apply not_elem_of_cons in Hnin as [Hne Hnin].
           rewrite Hframe' by (done || lia). by apply Hframe1.
        -- rewrite (read_dict_frame h1 h' d (dict_update doc patch));
             [simpl; by rewrite Hdocs1|..|done]; [|lia].
           intros x Hx. apply Hframe'.
           ++ apply (reach_allocated h1 (RObj d)); [done|simpl; lia|done].
           ++ intros Hin. destruct (Hreach1 x Hx) as [Hold|Hnew].
              ** exact (proj1 (Hd x Hin) Hold).
              ** specialize (Hlt x Hin). lia.
    + destruct (IH docs' h) as (h' & Hloop & Hc' & Hlen' & Hframe' & Hdocs1);
        try done.
      { intros d' Hd'. apply Hpatch. by right. }
      exists h'. rewrite Hloop.
      destruct (value_update_loop docs' query patch) as [rest e]. simpl in *.
      split_and!; [done..| |].
      * intros x Hx Hnin. apply not_elem_of_cons in Hnin as [Hne Hnin].
        by apply Hframe'.
      * rewrite (read_dict_frame h h' d doc); [simpl; by rewrite Hdocs1|..|done];
          [|lia].
        intros x Hx. apply Hframe'.
        -- by apply (reach_allocated h (RObj d)).
        -- intros Hin. exact (proj1 (Hd x Hin) Hx).
    + exists h. split_and!; try done. rewrite Hdoc. simpl.
      unfold read_docs. by rewrite Hread'.
Qed.

(** ** [update_many] on the heap and on values *)

Lemma region_closedb_closed (h : heap) (ls : list loc) :
  region_closedb h ls = true → region_closed (λ x, x ∈ ls) h.
Proof.
  unfold region_closedb. rewrite forallb_forall. intros Hall l o Hl Ho.
  apply list_elem_of_In, Hall in Hl. rewrite Ho, forallb_forall in Hl.
  apply Forall_forall. intros r Hr. apply list_elem_of_In, Hl in Hr.
  destruct r; simpl; try done. by apply bool_decide_eq_true in Hr.
Qed.

Lemma region_not_reach (h : heap) (ls : list loc) (l x : loc) :
  region_closedb h ls = true → l ∈ ls → x ∉ ls → ¬ reach h (RObj l) x.
Proof.
  intros Hc Hl Hx Hreach. apply Hx.
  by apply (reach_region (λ x, x ∈ ls) h (RObj l) x (region_closedb_closed _ _ Hc)).
Qed.

Lemma region_holds_none (h : heap) (ls ds : list loc) (l : loc) :
  region_closedb h ls = true → l ∈ ls →
  forallb (λ d, negb (bool_decide (d ∈ ls))) ds = true →
  ∀ d, d ∈ ds → ¬ reach h (RObj l) d.
Proof.
  rewrite forallb_forall. intros Hc Hl Hout d Hd.
  apply (region_not_reach h ls); [done..|].
  apply list_elem_of_In, Hout, negb_true_iff in Hd.
  by apply bool_decide_eq_false in Hd.
Qed.

Lemma apartb_apart (h : heap) (regions : list (loc * list loc)) :
  apartb h regions = true → apart h regions.*1.
Proof.
  unfold apartb. rewrite andb_true_iff, bool_decide_eq_true, forallb_forall.
  intros [Hnodup Hall] i j di dj Hi Hj Hne Hreach.
  pose proof Hi as Hi'. rewrite list_lookup_fmap in Hi.
  destruct (regions !! i) as [[d ls]|] eqn:Hreg; [|done].
  injection Hi as ->.
  apply list_elem_of_lookup_2, list_elem_of_In, Hall in Hreg.
  rewrite !andb_true_iff, forallb_forall in Hreg.
  destruct Hreg as [[Hin Hc] Hout]. simpl in *.
  apply bool_decide_eq_true in Hin.
  pose proof (list_elem_of_lookup_2 _ _ _ Hj) as Hdj.
  apply list_elem_of_In, Hout, orb_true_iff in Hdj as [Heq|Hnot].
  - apply bool_decide_eq_true in Heq as ->.
    apply Hne. by eapply NoDup_lookup.
  - apply negb_true_iff, bool_decide_eq_false in Hnot.
    by apply (region_not_reach h ls di dj).
Qed.

Lemma update_many_reads (c : string) (query patch : dict) (p : loc)
    (docs : list dict) (st : state) :
  closed st.1 → view st c = Some docs → read_dict st.1 p = Some patch →
  apart st.1 (collection st.2 c) →
  (∀ d, d ∈ collection st.2 c → ¬ reach st.1 (RObj p) d) →
  ∃ h',
    update_many c query p st
      = Some (match (value_update_loop docs query patch).2 with
              | Some e => Raise e
              | None => Ok ()
              end, (h', st.2)) ∧
    closed h' ∧ length st.1 ≤ length h' ∧
    (∀ x, x < length st.1 → x ∉ collection st.2 c → h' !! x = st.1 !! x) ∧
    read_docs h' (collection st.2 c)
      = Some (value_update_loop docs query patch).1.
Proof.
  destruct st as [h db]. unfold view, update_many, collection. simpl.
  intros Hc Hview Hp Hap Hpatch.
  destruct (db !! c) as [ds|] eqn:Hds; simpl in *.
  - destruct (update_loop_reads query patch p ds docs h Hc Hview Hp Hpatch Hap)
      as (h' & Hloop & Hrest).
    exists h'. rewrite Hloop. simpl. by split.
  - injection Hview as <-. by exists h.
Qed.

(** On a store none of whose records of collection [c] is held by another
    record of the collection or by the patch, [update_many] on the heap
    does what [update_many] on the values of the records does: it returns
    or raises alike, the records stay where they are, and the collection
    then reads as the collection of the store of values. *)
Theorem update_many_reads_as_on_values (c : string) (query patch : dict)
    (p : loc) (db : store) (st : state) :
  closed st.1 →
  view st c = Some (value_collection db c) →
  read_dict st.1 p = Some patch →
  apart st.1 (collection st.2 c) →
  (∀ d, d ∈ collection st.2 c → ¬ reach st.1 (RObj p) d) →
  ∃ st',
    update_many c query p st
      = Some ((value_update_many c query patch db).1, st') ∧
    st'.2 = st.2 ∧
    view st' c
      = Some (value_collection (value_update_many c query patch db).2 c).
Proof.
  intros Hc Hview Hp Hap Hpatch.
  destruct (update_many_reads c query patch p _ st Hc Hview Hp Hap Hpatch)
    as (h' & Hupd & _ & _ & _ & Hread).
  exists (h', st.2). rewrite Hupd. unfold view. simpl. rewrite Hread.
  unfold value_update_many, value_collection.
  destruct (db !! c) as [docs|] eqn:Hdocs; simpl.
  - destruct (value_update_loop docs query patch) as [docs' e]. simpl.
    by rewrite lookup_insert_eq.
  - by rewrite Hdocs.
Qed.

Lemma update_many_reads_as_on_values_witness :
  ∃ st',
    update_many "c" Scenario.by_a_b 5 nested_store
      = Some (Raise TypeError, st') ∧
    view st' "c"
      = Some [[("a", VDict [("b", VInt 1)]); ("x", VInt 1)];
              Scenario.scalar_a; Scenario.nested_a].
Proof.
  destruct (update_many_reads_as_on_values "c" Scenario.by_a_b [("x", VInt 1)] 5
              {["c" := [Scenario.nested_a; Scenario.scalar_a; Scenario.nested_a]]}
              nested_store) as (st' & Hupd & _ & Hview).
  - exact (closedb_closed nested_store.1 eq_refl).
  - vm_compute. reflexivity.
  - vm_compute. reflexivity.
  - exact (apartb_apart nested_store.1 [(1, [1; 0]); (2, [2]); (4, [4; 3])]
             eq_refl).
  - apply (region_holds_none nested_store.1 [5]);
      [reflexivity|by left|vm_compute; reflexivity].
  - exists st'. split; [exact Hupd|exact Hview].
Defined.

(** When the predicate raises on a record and no record of the collection
    is held by another record of the collection or by the patch,
    [update_many] fails with that exception and the store keeps the
    patches made so far: the records before the failing one then read as
    patched where they match, the failing record and the records behind
    it as before. *)
Theorem update_many_keeps_partial_updates (c : string) (query patch : dict)
    (p : loc) (st : state) (before after : list dict) (bad : dict) (e : exn) :
  closed st.1 →
  view st c = Some (before ++ bad :: after) →
  read_dict st.1 p = Some patch →
  apart st.1 (collection st.2 c) →
  (∀ d, d ∈ collection st.2 c → ¬ reach st.1 (RObj p) d) →
  (∀ doc, doc ∈ before → ∃ m, _matches_query (VDict doc) query = Ok m) →
  _matches_query (VDict bad) query = Raise e →
  ∃ st',
    update_many c query p st = Some (Raise e, st') ∧
    st'.2 = st.2 ∧
    view st' c = Some (map (patched query patch) before ++ bad :: after).
Proof.
  intros Hc Hview Hp Hap Hpatch Hok He.
  destruct (update_many_reads c query patch p _ st Hc Hview Hp Hap Hpatch)
    as (h' & Hupd & _ & _ & _ & Hread).
  rewrite (update_loop_app_raise _ _ _ _ _ _ Hok He) in Hupd, Hread.
  by exists (h', st.2).
Qed.

Lemma update_many_keeps_partial_updates_witness :
  ∃ st',
    update_many "c" Scenario.by_a_b 5 nested_store
      = Some (Raise TypeError, st') ∧
    st'.2 = nested_store.2 ∧
    view st' "c"
      = Some [[("a", VDict [("b", VInt 1)]); ("x", VInt 1)];
              Scenario.scalar_a; Scenario.nested_a].
Proof.
  apply (update_many_keeps_partial_updates "c" Scenario.by_a_b [("x", VInt 1)]
           5 nested_store [Scenario.nested_a] [Scenario.nested_a]
           Scenario.scalar_a TypeError).
  - exact (closedb_closed nested_store.1 eq_refl).
  - vm_compute. reflexivity.
  - vm_compute. reflexivity.
  - exact (apartb_apart nested_store.1 [(1, [1; 0]); (2, [2]); (4, [4; 3])]
             eq_refl).
  - apply (region_holds_none nested_store.1 [5]);
      [reflexivity|by left|vm_compute; reflexivity].
  - intros doc Hdoc. apply list_elem_of_singleton in Hdoc as ->.
    exists true. vm_compute. reflexivity.
  - vm_compute. reflexivity.
Defined.

(** Whether it succeeds or fails, [update_many] neither adds nor removes
    nor moves a record.  When no record of the collection is held by
    another record of the collection or by the patch, the record at each
    position then reads as before the call or as that value with the
    patch merged in, and a collection none of whose records holds a
    record of [c] reads as before. *)
Theorem update_many_keeps_the_records (c : string) (query patch : dict)
    (p : loc) (docs : list dict) (st : state) :
  closed st.1 →
  view st c = Some docs →
  read_dict st.1 p = Some patch →
  apart st.1 (collection st.2 c) →
  (∀ d, d ∈ collection st.2 c → ¬ reach st.1 (RObj p) d) →
  ∃ res st' docs',
    update_many c query p st = Some (res, st') ∧
    st'.2 = st.2 ∧
    view st' c = Some docs' ∧
    length docs' = length docs ∧
    (∀ i doc, docs !! i = Some doc →
       docs' !! i = Some doc ∨ docs' !! i = Some (dict_update doc patch)) ∧
    (∀ c' docs2,
       (∀ d' d, d' ∈ collection st.2 c' → d ∈ collection st.2 c →
                ¬ reach st.1 (RObj d') d) →
       view st c' = Some docs2 → view st' c' = Some docs2).
Proof.
  intros Hc Hview Hp Hap Hpatch.
  destruct (update_many_reads c query patch p _ st Hc Hview Hp Hap Hpatch)
    as (h' & Hupd & _ & Hlen & Hframe & Hread).
  pose proof (update_loop_pointwise docs query patch) as Hall.
  eexists _, (h', st.2), _. split_and!; [done|done|done|..].
  - symmetry. by eapply Forall2_length.
  - intros i doc Hi.
    destruct (Forall2_lookup_l _ _ _ _ _ Hall Hi) as (doc' & -> & [->| ->]);
      [by left|by right].
  - intros c' docs2 Hout Hview'. unfold view in *. simpl.
    apply (read_docs_frame st.1); [|done..]. intros d' x Hd' Hx.
    apply Hframe.
    + apply (reach_allocated st.1 (RObj d')); [done| |done]. simpl.
      apply mapM_Some in Hview'. apply list_elem_of_lookup in Hd' as [i Hi].
      destruct (Forall2_lookup_l _ _ _ _ _ Hview' Hi) as (doc' & _ & Hdoc').
      by apply read_dict_object in Hdoc' as [? _].
    + intros Hin. by apply (Hout d' x).
Qed.

Lemma update_many_keeps_the_records_witness :
  ∃ res st' docs',
    update_many "c" Scenario.by_a_b 5 nested_store = Some (res, st') ∧
    st'.2 = nested_store.2 ∧
    view st' "c" = Some docs' ∧
    length docs' = 3.
Proof.
  destruct (update_many_keeps_the_records "c" Scenario.by_a_b [("x", VInt 1)]
              5 [Scenario.nested_a; Scenario.scalar_a; Scenario.nested_a]
              nested_store)
    as (res & st' & docs' & Hupd & Hdb & Hview & Hlen & _).
  - exact (closedb_closed nested_store.1 eq_refl).
  - vm_compute. reflexivity.
  - vm_compute. reflexivity.
  - exact (apartb_apart nested_store.1 [(1, [1; 0]); (2, [2]); (4, [4; 3])]
             eq_refl).
  - apply (region_holds_none nested_store.1 [5]);
      [reflexivity|by left|vm_compute; reflexivity].
  - exists res, st', docs'. split_and!; [exact Hupd|exact Hdb|exact Hview|].
    exact Hlen.
Defined.

End Isolation.
